(** * order-system/pkg/infra/concurrent: the atomic counter and the worker pool

A shallow embedding of the two files of package [concurrent].

- [Counter] (counter.go): a 64-bit signed counter driven through
  [sync/atomic].  Every method is one atomic machine operation, so each
  is a total function from the value before to the result and the value
  after; an [int64] is an integer in [[-2^63, 2^63)] and sums wrap.
- [Pool] (pool.go): a buffered channel used as a counting semaphore, a
  [sync.WaitGroup], a closed flag and a mutex.  Callers of [Submit] and
  [Close] and the goroutines started by [Submit] are the threads of an
  interleaving semantics; one step of a thread is one statement of the
  source that touches the pool.

What the model takes from the Go runtime and library:
- [sync.Mutex]: [Lock] waits while the mutex is held; [Unlock] of a
  mutex that is not held is fatal.
- [sync.WaitGroup], by its documented counter: [Add] adds, and panics
  if the counter becomes negative; [Done] is [Add(-1)]; [Wait] waits
  until the counter is zero.  The counter is not bounded, and the
  runtime's detection of an [Add] that races with a [Wait] is not
  modelled.
- a channel of [struct{}] with capacity [n]: a send waits while [n]
  values are buffered, a receive waits while none is.
- a task body, once called, returns. *)

From Stdlib Require Import ZArith Lia Bool List Permutation Ascii DecimalString.
From stdpp Require Import base tactics list strings gmap.

Local Open Scope Z_scope.

(** ** Go's [int64] *)

Module Int64.

Definition modulus : Z := 2 ^ 64.
Definition min_signed : Z := - 2 ^ 63.
Definition max_signed : Z := 2 ^ 63 - 1.

(** The values an [int64] variable can hold. *)
Definition in_range (z : Z) : Prop := min_signed <= z <= max_signed.

(** Reduction of a mathematical integer to the [int64] that has the same
    64 low bits (two's complement). *)
Definition wrap (z : Z) : Z := (z + 2 ^ 63) mod modulus - 2 ^ 63.

(** Go's [+] on [int64]: it never traps, the result wraps around. *)
Definition add (x y : Z) : Z := wrap (x + y).

End Int64.

(** ** counter.go *)

Module Counter.

(** [type Counter struct { value int64 }] *)
Record Counter : Type := mkCounter { value : Z }.

(** A counter that the program can hold: its field is an [int64]. *)
Definition wf (c : Counter) : Prop := Int64.in_range (value c).

(** [func NewCounter(initial int64) *Counter] *)
Definition NewCounter (initial : Z) : Counter := mkCounter initial.

(** [atomic.AddInt64(addr, delta)]: stores [*addr + delta] and returns the
    new value.  Result first, memory after. *)
Definition AddInt64 (delta : Z) (c : Counter) : Z * Counter :=
  let n := Int64.add (value c) delta in (n, mkCounter n).

(** [atomic.LoadInt64(addr)] *)
Definition LoadInt64 (c : Counter) : Z * Counter := (value c, c).

(** [atomic.StoreInt64(addr, val)] *)
Definition StoreInt64 (val : Z) (c : Counter) : unit * Counter :=
  (tt, mkCounter val).

(** [atomic.CompareAndSwapInt64(addr, old, new)] *)
Definition CompareAndSwapInt64 (old new : Z) (c : Counter) : bool * Counter :=
  if value c =? old then (true, mkCounter new) else (false, c).

(** [func (c *Counter) Increment() int64] *)
Definition Increment (c : Counter) : Z * Counter := AddInt64 1 c.

(** [func (c *Counter) Decrement() int64] *)
Definition Decrement (c : Counter) : Z * Counter := AddInt64 (-1) c.

(** [func (c *Counter) Add(delta int64) int64] *)
Definition Add (delta : Z) (c : Counter) : Z * Counter := AddInt64 delta c.

(** [func (c *Counter) Value() int64] *)
Definition Value (c : Counter) : Z * Counter := LoadInt64 c.

(** [func (c *Counter) Reset()] *)
Definition Reset (c : Counter) : unit * Counter := StoreInt64 0 c.

(** [func (c *Counter) CompareAndSwap(old, new int64) bool] *)
Definition CompareAndSwap (old new : Z) (c : Counter) : bool * Counter :=
  CompareAndSwapInt64 old new c.

(** [n] calls of one method in a row, results dropped. *)
Fixpoint repeat_op {R : Type} (op : Counter -> R * Counter) (n : nat)
    (c : Counter) : Counter :=
  match n with
  | O => c
  | S k => repeat_op op k (snd (op c))
  end.

End Counter.

(** ** pool.go *)

Module Pool.

(** The one error value [Submit] builds: [errors.New("pool is closed")]. *)
Inductive error : Type := ErrPoolClosed.

(** [type Pool struct].  The channel [workers] carries values of type
    [struct{}], so its content is its length; [wg] is the counter of the
    [sync.WaitGroup]; [mu] is [true] while the mutex is held.  No method
    writes [activeJobs]. *)
Record Pool : Type := mkPool {
  workers_cap : Z;
  workers_len : Z;
  wg : Z;
  activeJobs : Z;
  closed : bool;
  mu : bool
}.

Definition set_workers_len (n : Z) (p : Pool) : Pool :=
  mkPool (workers_cap p) n (wg p) (activeJobs p) (closed p) (mu p).
Definition set_wg (n : Z) (p : Pool) : Pool :=
  mkPool (workers_cap p) (workers_len p) n (activeJobs p) (closed p) (mu p).
Definition set_closed (b : bool) (p : Pool) : Pool :=
  mkPool (workers_cap p) (workers_len p) (wg p) (activeJobs p) b (mu p).
Definition set_mu (b : bool) (p : Pool) : Pool :=
  mkPool (workers_cap p) (workers_len p) (wg p) (activeJobs p) (closed p) b.

(** [func NewPool(size int) *Pool].  [make(chan struct{}, size)] panics
    with "makechan: size out of range" when [size] is negative, and for
    an element type of size zero in no other case; [size = 0] makes an
    unbuffered channel.  [None] is the panic. *)
Definition NewPool (size : Z) : option Pool :=
  if size <? 0 then None
  else Some (mkPool size 0 0 0 false false).

(** [func (p *Pool) ActiveTasks() int] *)
Definition ActiveTasks (p : Pool) : Z := workers_len p.

(** Control points.  A caller of [Submit] walks through the [Submit*]
    points, a caller of [Close] through the [Close*] points, and the
    goroutine started by [Submit] through the [Worker*] points; a worker
    remembers the index of the [Submit] call whose task it runs.  Each
    point names the statement the thread executes next. *)
Inductive pc : Type :=
| SubmitLock                        (* p.mu.Lock() *)
| SubmitCheck                       (* if p.closed *)
| SubmitUnlockErr                   (* p.mu.Unlock(); return errors.New(..) *)
| SubmitUnlock                      (* p.mu.Unlock() *)
| SubmitAdd                         (* p.wg.Add(1) *)
| SubmitGo                          (* go func() {..}(); return nil *)
| SubmitRet (r : option error)      (* Submit has returned r *)
| CloseLock                         (* p.mu.Lock() *)
| CloseSet                          (* p.closed = true *)
| CloseUnlock                       (* p.mu.Unlock() *)
| CloseWait                         (* p.wg.Wait() *)
| CloseRet                          (* Close has returned *)
| WorkerAcquire (owner : nat)       (* p.workers <- struct{}{} *)
| WorkerTask (owner : nat)          (* _ = task() *)
| WorkerRelease (owner : nat)       (* deferred: <-p.workers *)
| WorkerDone (owner : nat)          (* deferred: p.wg.Done() *)
| WorkerExit (owner : nat).         (* the goroutine has ended *)

(** The calls a client makes on a pool. *)
Inductive call : Type := CallSubmit | CallClose.

Definition entry (c : call) : pc :=
  match c with CallSubmit => SubmitLock | CallClose => CloseLock end.

Record state : Type := mkState { pool : Pool; threads : list pc }.

(** The pool and one thread per call, none of them started. *)
Definition start (p : Pool) (calls : list call) : state :=
  mkState p (entry <$> calls).

Inductive panic : Type :=
| UnlockOfUnlockedMutex             (* fatal error: sync: unlock of unlocked mutex *)
| NegativeWaitGroupCounter.         (* panic: sync: negative WaitGroup counter *)

Inductive outcome : Type :=
| Next (s : state)                  (* the statement ran *)
| Blocked                           (* the thread waits *)
| Finished                          (* the thread has ended *)
| NoThread                          (* no thread with this index *)
| Panicked (e : panic).

Definition goto (i : nat) (c : pc) (p : Pool) (s : state) : outcome :=
  Next (mkState p (<[i := c]> (threads s))).

(** [func (p *Pool) Submit(task func() error) error], statement by
    statement: what call [i] does at control point [c].  The mutex is
    released before [p.wg.Add(1)]. *)
Definition Submit (i : nat) (c : pc) (s : state) : outcome :=
  let p := pool s in
  match c with
  | SubmitLock =>
      if mu p then Blocked else goto i SubmitCheck (set_mu true p) s
  | SubmitCheck =>
      goto i (if closed p then SubmitUnlockErr else SubmitUnlock) p s
  | SubmitUnlockErr =>
      if mu p then goto i (SubmitRet (Some ErrPoolClosed)) (set_mu false p) s
      else Panicked UnlockOfUnlockedMutex
  | SubmitUnlock =>
      if mu p then goto i SubmitAdd (set_mu false p) s
      else Panicked UnlockOfUnlockedMutex
  | SubmitAdd =>
      if wg p + 1 <? 0 then Panicked NegativeWaitGroupCounter
      else goto i SubmitGo (set_wg (wg p + 1) p) s
  | SubmitGo =>
      Next (mkState p (<[i := SubmitRet None]> (threads s) ++ [WorkerAcquire i]))
  | _ => Finished
  end.

(** The goroutine of [Submit]:
    [defer p.wg.Done(); p.workers <- struct{}{};
     defer func() { <-p.workers }(); _ = task()].
    The deferred calls run last registered first: the receive, then
    [Done].  A send on [workers] waits while the buffer is full and a
    receive waits while it is empty.  With capacity zero a send needs a
    receiver that is waiting; the only receive is the deferred one of a
    goroutine whose own send went through, so there the send waits like a
    send on a full buffer. *)
Definition Submit_goroutine (i : nat) (c : pc) (s : state) : outcome :=
  let p := pool s in
  match c with
  | WorkerAcquire o =>
      if workers_len p <? workers_cap p
      then goto i (WorkerTask o) (set_workers_len (workers_len p + 1) p) s
      else Blocked
  | WorkerTask o => goto i (WorkerRelease o) p s
  | WorkerRelease o =>
      if 0 <? workers_len p
      then goto i (WorkerDone o) (set_workers_len (workers_len p - 1) p) s
      else Blocked
  | WorkerDone o =>
      if wg p - 1 <? 0 then Panicked NegativeWaitGroupCounter
      else goto i (WorkerExit o) (set_wg (wg p - 1) p) s
  | _ => Finished
  end.

(** [func (p *Pool) Close()], statement by statement. *)
Definition Close (i : nat) (c : pc) (s : state) : outcome :=
  let p := pool s in
  match c with
  | CloseLock =>
      if mu p then Blocked else goto i CloseSet (set_mu true p) s
  | CloseSet => goto i CloseUnlock (set_closed true p) s
  | CloseUnlock =>
      if mu p then goto i CloseWait (set_mu false p) s
      else Panicked UnlockOfUnlockedMutex
  | CloseWait =>
      if wg p =? 0 then goto i CloseRet p s else Blocked
  | _ => Finished
  end.

(** Which function a thread runs. *)
Inductive kind : Type := InSubmit | InClose | InWorker.

Definition kind_of (c : pc) : kind :=
  match c with
  | SubmitLock | SubmitCheck | SubmitUnlockErr | SubmitUnlock | SubmitAdd
  | SubmitGo | SubmitRet _ => InSubmit
  | CloseLock | CloseSet | CloseUnlock | CloseWait | CloseRet => InClose
  | WorkerAcquire _ | WorkerTask _ | WorkerRelease _ | WorkerDone _
  | WorkerExit _ => InWorker
  end.

(** One statement of thread [i]. *)
Definition step (s : state) (i : nat) : outcome :=
  match threads s !! i with
  | None => NoThread
  | Some c =>
      match kind_of c with
      | InSubmit => Submit i c s
      | InClose => Close i c s
      | InWorker => Submit_goroutine i c s
      end
  end.

(** A schedule names, step by step, the thread that runs.  [exec] follows
    it and gives up when the named thread cannot run. *)
Fixpoint exec (sched : list nat) (s : state) : option state :=
  match sched with
  | [] => Some s
  | i :: rest =>
      match step s i with
      | Next s' => exec rest s'
      | _ => None
      end
  end.

(** Thread [i] alone, until it waits or ends, for at most [fuel]
    statements. *)
Fixpoint run_alone (fuel : nat) (i : nat) (s : state) : outcome :=
  match fuel with
  | O => Next s
  | S k =>
      match step s i with
      | Next s' => run_alone k i s'
      | Blocked | Finished => Next s
      | o => o
      end
  end.

(** Weighted number of threads. *)
Fixpoint count (f : pc -> Z) (l : list pc) : Z :=
  match l with
  | [] => 0
  | c :: rest => f c + count f rest
  end.

(** A worker holds a permit from its send to its receive. *)
Definition holding (c : pc) : Z :=
  match c with WorkerTask _ | WorkerRelease _ => 1 | _ => 0 end.

(** Threads the WaitGroup counts: from [Add(1)] to [Done()]. *)
Definition counted (c : pc) : Z :=
  match c with
  | SubmitGo | WorkerAcquire _ | WorkerTask _ | WorkerRelease _
  | WorkerDone _ => 1
  | _ => 0
  end.

(** Threads between [Lock] and [Unlock]. *)
Definition critical (c : pc) : Z :=
  match c with
  | SubmitCheck | SubmitUnlockErr | SubmitUnlock | CloseSet | CloseUnlock => 1
  | _ => 0
  end.


Definition finished (c : pc) : bool :=
  match c with SubmitRet _ | CloseRet | WorkerExit _ => true | _ => false end.

(** A caller of [Close] that has executed [p.closed = true]. *)
Definition after_set (c : pc) : bool :=
  match c with CloseUnlock | CloseWait | CloseRet => true | _ => false end.

(** A worker whose send on [workers] went through. *)
Definition admitted (c : pc) : bool :=
  match c with
  | WorkerTask _ | WorkerRelease _ | WorkerDone _ | WorkerExit _ => true
  | _ => false
  end.

Definition owner (c : pc) : option nat :=
  match c with
  | WorkerAcquire o | WorkerTask o | WorkerRelease o | WorkerDone o
  | WorkerExit o => Some o
  | _ => None
  end.

(** The task bodies that are running, in the sense of the permits: the
    workers between acquire and release. *)
Definition executing (s : state) : Z := count holding (threads s).

(** A goroutine has been started for the task of [Submit] call [i]. *)
Definition spawned (i : nat) (s : state) : Prop :=
  exists j c, threads s !! j = Some c /\ owner c = Some i.

Definition past_task (c : pc) : bool :=
  match c with
  | WorkerRelease _ | WorkerDone _ | WorkerExit _ => true
  | _ => false
  end.

(** The body of the task of [Submit] call [i] has run: its worker is
    past the call [task()]. *)
Definition task_ran (i : nat) (s : state) : Prop :=
  exists j c, threads s !! j = Some c /\ owner c = Some i /\
              past_task c = true.

(** An accepted task that has not completed: its worker has not yet
    passed [wg.Done()]. *)
Definition pending (c : pc) : bool :=
  match c with
  | WorkerAcquire _ | WorkerTask _ | WorkerRelease _ | WorkerDone _ => true
  | _ => false
  end.

(** A [Submit] call on its way to the error return, or there. *)
Definition rejecting (c : pc) : bool :=
  match c with
  | SubmitLock | SubmitCheck | SubmitUnlockErr | SubmitRet (Some _) => true
  | _ => false
  end.

(** One caller of [Submit], one caller of [Close], and a schedule in
    which [Close] runs from start to end between the [Unlock] and the
    [wg.Add(1)] of [Submit]. *)
Definition race_calls : list call := [CallSubmit; CallClose].
Definition race_schedule : list nat := [0; 0; 0; 1; 1; 1; 1; 0; 0]%nat.

(** The counting invariant: the channel holds one value per worker
    between its send and its receive, the WaitGroup counts the threads
    between [Add(1)] and [Done()], and the mutex is held exactly while
    one thread is between [Lock] and [Unlock]. *)
Record inv (s : state) : Prop := mkInv {
  inv_cap : 0 <= workers_cap (pool s);
  inv_len : workers_len (pool s) = count holding (threads s);
  inv_len_cap : workers_len (pool s) <= workers_cap (pool s);
  inv_wg : wg (pool s) = count counted (threads s);
  inv_mu : count critical (threads s) = Z.b2z (mu (pool s))
}.

(** Every worker belongs to a [Submit] call that has returned [nil]. *)
Definition owners_ok (s : state) : Prop :=
  forall j c o, threads s !! j = Some c -> owner c = Some o ->
                threads s !! o = Some (SubmitRet None).

(** A [Close] call past [p.closed = true] sees the flag set. *)
Definition closed_ok (s : state) : Prop :=
  forall j c, threads s !! j = Some c -> after_set c = true ->
              closed (pool s) = true.

End Pool.

(** ** Uses of the counter and the pool *)

Module Uses.
Import Counter Pool.

(** Calls of [Add], one per element, in the order of the list: a
    linearisation of the calls that goroutines make on one counter. *)
Definition add_all (ds : list Z) (c : Counter) : Counter :=
  fold_left (fun acc d => snd (Add d acc)) ds c.

Definition sum_deltas (ds : list Z) : Z := fold_right Z.add 0 ds.

(** Goroutines that run the task of [Submit] call [i]. *)
Definition owned_by (i : nat) (c : pc) : Z :=
  match owner c with
  | Some o => if Nat.eqb o i then 1 else 0
  | None => 0
  end.

Definition returned_nil (c : option pc) : Z :=
  match c with Some (SubmitRet None) => 1 | _ => 0 end.

(** One goroutine per call that has returned [nil], none for the others. *)
Definition spawn_ok (s : state) : Prop :=
  forall i, count (owned_by i) (threads s) = returned_nil (threads s !! i).


End Uses.

(** ** metrics: the collector *)

Module Metrics.

(** [type MetricType int] with [Counter = iota], [Gauge], [Histogram].
    Any [int] converts to a [MetricType]. *)
Definition MetricType : Type := Z.
Definition Counter : MetricType := 0.
Definition Gauge : MetricType := 1.
Definition Histogram : MetricType := 2.

(** [type Labels map[string]string].  A [range] over a Go map visits the
    entries in an order the runtime chooses anew each time; a value of
    this type is the entries of the map in the order one [range]
    statement visits them. *)
Definition Labels : Type := list (string * string).

(** [func labelsToString(labels Labels) string]:
    [fmt.Sprintf("%s=%s;", k, v)] appended for each entry visited. *)
Fixpoint labelsToString (labels : Labels) : string :=
  match labels with
  | [] => ""
  | (k, v) :: rest => k +:+ "=" +:+ v +:+ ";" +:+ labelsToString rest
  end.

(** The byte [c] does not occur in [s]. *)
Fixpoint free_of (c : Ascii.ascii) (s : string) : bool :=
  match s with
  | EmptyString => true
  | String.String x rest => negb (Ascii.eqb x c) && free_of c rest
  end.

(** Labels whose keys hold no ['='] and whose values hold no [';']. *)
Definition plain (labels : Labels) : Prop :=
  Forall (fun kv => free_of "="%char (fst kv) = true /\
                    free_of ";"%char (snd kv) = true) labels.

(** [func stringToLabels(s string) Labels]: both branches return an
    empty map. *)
Definition stringToLabels (s : string) : Labels :=
  if String.eqb s "" then [] else [].

Section Collector.

(** Go's [float64] is not interpreted: its zero and its addition are
    all the collector uses. *)
Variable float64 : Type.
Variable fzero : float64.
Variable fadd : float64 -> float64 -> float64.

(** [type defaultCollector struct].  Every method holds [mu] from its
    first statement to its return, so a method is one step. *)
Record defaultCollector : Type := mkCollector {
  counters : gmap string (gmap string float64);
  gauges : gmap string (gmap string float64);
  histograms : gmap string (gmap string (list float64));
  descriptions : gmap string string;
  types : gmap string MetricType
}.

(** What [New] returns when metrics are enabled. *)
Definition empty_collector : defaultCollector :=
  mkCollector ∅ ∅ ∅ ∅ ∅.

(** [func New(cfg *config.Config) (Collector, error)] *)
Definition New (enabled : bool) : defaultCollector + string :=
  if enabled then inl empty_collector else inr "metrics are disabled".

(** [c.types[name]]: a missing key reads as the zero value, which is
    [Counter]. *)
Definition type_of (c : defaultCollector) (name : string) : MetricType :=
  default 0 (types c !! name).

(** [c.counters[name][key]] and the like: a missing key, also in a nil
    inner map, reads as the zero value. *)
Definition read2 {V : Type} (zero : V) (m : gmap string (gmap string V))
    (name key : string) : V :=
  default zero (default ∅ (m !! name) !! key).

(** [m[name][key] = v], after [m[name] = make(..)] when [name] is not
    yet a key of [m]. *)
Definition write2 {V : Type} (m : gmap string (gmap string V))
    (name key : string) (v : V) : gmap string (gmap string V) :=
  <[name := <[key := v]> (default ∅ (m !! name))]> m.

(** [func (c *defaultCollector) Register(name, metricType, description) error] *)
Definition Register (name : string) (metricType : MetricType)
    (description : string) (c : defaultCollector)
    : option string * defaultCollector :=
  match types c !! name with
  | Some _ => (Some ("metric " +:+ name +:+ " already registered"), c)
  | None =>
      let ty := <[name := metricType]> (types c) in
      let ds := <[name := description]> (descriptions c) in
      (None,
       if metricType =? Counter then
         mkCollector (<[name := ∅]> (counters c)) (gauges c) (histograms c) ds ty
       else if metricType =? Gauge then
         mkCollector (counters c) (<[name := ∅]> (gauges c)) (histograms c) ds ty
       else if metricType =? Histogram then
         mkCollector (counters c) (gauges c) (<[name := ∅]> (histograms c)) ds ty
       else
         mkCollector (counters c) (gauges c) (histograms c) ds ty)
  end.

(** [func (c *defaultCollector) IncrementCounter(name, value, labels)] *)
Definition IncrementCounter (name : string) (value : float64)
    (labels : Labels) (c : defaultCollector) : defaultCollector :=
  if type_of c name =? Counter then
    let key := labelsToString labels in
    mkCollector
      (write2 (counters c) name key
         (fadd (read2 fzero (counters c) name key) value))
      (gauges c) (histograms c) (descriptions c) (types c)
  else c.

(** [func (c *defaultCollector) GetCounter(name, labels) float64] *)
Definition GetCounter (name : string) (labels : Labels)
    (c : defaultCollector) : float64 :=
  if type_of c name =? Counter
  then read2 fzero (counters c) name (labelsToString labels)
  else fzero.

(** [func (c *defaultCollector) SetGauge(name, value, labels)] *)
Definition SetGauge (name : string) (value : float64) (labels : Labels)
    (c : defaultCollector) : defaultCollector :=
  if type_of c name =? Gauge then
    mkCollector (counters c)
      (write2 (gauges c) name (labelsToString labels) value)
      (histograms c) (descriptions c) (types c)
  else c.

(** [func (c *defaultCollector) GetGauge(name, labels) float64] *)
Definition GetGauge (name : string) (labels : Labels)
    (c : defaultCollector) : float64 :=
  if type_of c name =? Gauge
  then read2 fzero (gauges c) name (labelsToString labels)
  else fzero.

(** [func (c *defaultCollector) ObserveHistogram(name, value, labels)] *)
Definition ObserveHistogram (name : string) (value : float64)
    (labels : Labels) (c : defaultCollector) : defaultCollector :=
  if type_of c name =? Histogram then
    let key := labelsToString labels in
    mkCollector (counters c) (gauges c)
      (write2 (histograms c) name key
         (read2 [] (histograms c) name key ++ [value]))
      (descriptions c) (types c)
  else c.

(** [func (c *defaultCollector) GetHistogram(name, labels) []float64];
    the nil slice is the empty list. *)
Definition GetHistogram (name : string) (labels : Labels)
    (c : defaultCollector) : list float64 :=
  if type_of c name =? Histogram
  then read2 [] (histograms c) name (labelsToString labels)
  else [].

(** The calls that change a collector. *)
Inductive call : Type :=
| CallRegister (name : string) (metricType : MetricType) (description : string)
| CallIncrementCounter (name : string) (value : float64) (labels : Labels)
| CallSetGauge (name : string) (value : float64) (labels : Labels)
| CallObserveHistogram (name : string) (value : float64) (labels : Labels).

Definition apply_call (c : defaultCollector) (k : call) : defaultCollector :=
  match k with
  | CallRegister n t d => snd (Register n t d c)
  | CallIncrementCounter n v l => IncrementCounter n v l c
  | CallSetGauge n v l => SetGauge n v l c
  | CallObserveHistogram n v l => ObserveHistogram n v l c
  end.

Definition apply_calls (ks : list call) (c : defaultCollector)
    : defaultCollector :=
  fold_left apply_call ks c.

End Collector.

End Metrics.

(** ** database: errors, statements and transactions *)

Module Database.

(** Values of the interface [error] that these functions meet.  A nil
    interface is [None : option error].  [ErrNoRows] is the one value
    [sql.ErrNoRows]; [OtherError msg] is any value that is neither it nor
    a [*Error], with [msg] what its [Error()] returns; [DbError] is a
    pointer to the [Error] struct of this package, by its fields. *)
#[warnings="-register-all"]
Inductive error : Type :=
| ErrNoRows
| OtherError (msg : string)
| DbError (Operation Query : string) (Err : option error).

(** What [%v] prints for an operand of type [error]: its [Error()], or
    ["<nil>"] for nil.  [func (e *Error) Error() string] is the [DbError]
    case. *)
Fixpoint Error (e : error) : string :=
  match e with
  | ErrNoRows => "sql: no rows in result set"
  | OtherError msg => msg
  | DbError op query err =>
      let cause := match err with Some e' => Error e' | None => "<nil>" end in
      if String.eqb query "" then op +:+ ": " +:+ cause
      else op +:+ ": " +:+ query +:+ ": " +:+ cause
  end.

(** [err == sql.ErrNoRows] *)
Definition is_ErrNoRows (err : option error) : bool :=
  match err with Some ErrNoRows => true | _ => false end.

(** [func IsNoRows(err error) bool] *)
Definition IsNoRows (err : option error) : bool :=
  if is_ErrNoRows err then true
  else match err with
       | Some (DbError _ _ cause) => is_ErrNoRows cause
       | _ => false
       end.

Inductive panic : Type :=
| NilDereference            (* method call on a nil interface value *)
| SliceBoundsOutOfRange.    (* s[0:4] with len(s) < 4 *)

(** [func IsDuplicate(err error) bool]: [dbErr.Err.Error()[0:4] == "1062"]. *)
Definition IsDuplicate (err : option error) : bool + panic :=
  match err with
  | Some (DbError _ _ cause) =>
      match cause with
      | None => inr NilDereference
      | Some e =>
          let s := Error e in
          if (String.length s <? 4)%nat then inr SliceBoundsOutOfRange
          else inl (String.eqb (String.substring 0 4 s) "1062")
      end
  | _ => inl false
  end.




(** The cursor [*sql.Rows]: the rows not yet visited, the error that
    ends the iteration if any, and whether [Close] was called. *)
Record Rows : Type := mkRows {
  unread : nat;
  iteration_error : option error;
  rows_closed : bool
}.

(** A [Row] in the slice that [Query] returns is the pointer [rows]
    itself: a reference to a cursor. *)
Inductive Row : Type := RowOf (cursor : nat).

(** [for rows.Next() { result = append(result, rows) }], for a cursor
    that has [unread] rows to visit. *)
Fixpoint collect (cursor : nat) (unread : nat) : list Row :=
  match unread with
  | O => []
  | S n => RowOf cursor :: collect cursor n
  end.

(** [func (d *db) Query] and [func (t *transaction) Query]: the result,
    and the cursor that [QueryContext] returned as the deferred
    [rows.Close()] leaves it. *)
Definition Query (query : string) (answer : (nat * Rows) + error)
    : (list Row + error) * option (nat * Rows) :=
  match answer with
  | inr err => (inr (DbError "query" query (Some err)), None)
  | inl (cursor, rows) =>
      let result := collect cursor (unread rows) in
      let after := (cursor, mkRows 0 (iteration_error rows) true) in
      match iteration_error rows with
      | Some err => (inr (DbError "scan" query (Some err)), Some after)
      | None => (inl result, Some after)
      end
  end.

(** Calls on the [*sql.DB] and the [*sql.Tx] that [Transaction] makes. *)
Inductive event : Type := BeginTx | RunFn | Rollback | Commit.

(** What the environment answers: the error of [BeginTx], of the
    function run in the transaction, of [Rollback] and of [Commit]. *)
Record answers : Type := mkAnswers {
  begin_err : option error;
  fn_err : option error;
  rollback_err : option error;
  commit_err : option error
}.

(** [func (d *db) Transaction(ctx, fn) error]: the calls made, in order,
    and the error returned. *)
Definition Transaction (a : answers) : list event * option error :=
  match begin_err a with
  | Some err => ([BeginTx], Some (DbError "begin_transaction" "" (Some err)))
  | None =>
      match fn_err a with
      | Some err =>
          match rollback_err a with
          | Some rbErr =>
              ([BeginTx; RunFn; Rollback],
               Some (DbError "rollback" ""
                       (Some (OtherError
                                ("rollback failed: " +:+ Error rbErr +:+
                                 " (original error: " +:+ Error err +:+ ")")))))
          | None => ([BeginTx; RunFn; Rollback], Some err)
          end
      | None =>
          match commit_err a with
          | Some err =>
              ([BeginTx; RunFn; Commit], Some (DbError "commit" "" (Some err)))
          | None => ([BeginTx; RunFn; Commit], None)
          end
      end
  end.

End Database.

(** ** http: the client with retry *)

Module HTTP.

(** Values of the interface [error] that the client meets: a pointer to
    the [Error] struct of this package, by its fields, or any other
    error, by the text of its [Error()]. *)
#[warnings="-register-all"]
Inductive error : Type :=
| HttpError (StatusCode : Z) (Message : string) (Cause : option error)
| OtherError (msg : string).

(** [func (e *Error) Error() string] *)
Fixpoint Error (e : error) : string :=
  match e with
  | HttpError _ msg (Some cause) => msg +:+ ": " +:+ Error cause
  | HttpError _ msg None => msg
  | OtherError msg => msg
  end.

(** [type RequestOption struct]; durations in nanoseconds. *)
Record RequestOption : Type := mkRequestOption {
  Timeout : Z;
  RetryCount : Z;
  RetryInterval : Z;
  MaxBodySize : Z;
  Headers : list (string * string)
}.

(** [type Response struct] *)
Record Response : Type := mkResponse {
  StatusCode : Z;
  Body : string;
  ResponseHeaders : list (string * list string);
  Duration : Z
}.

(** What the network answers to one request: [NewRequestWithContext]
    fails; [client.Do] fails; or there is a response, with its status,
    its [ContentLength] (-1 when unknown), its header, what
    [io.ReadAll(io.LimitReader(resp.Body, opt.MaxBodySize))] gives, and
    the time elapsed. *)
Inductive answer : Type :=
| BadRequest (cause : error)
| NoResponse (cause : error)
| Responded (status content_length : Z)
    (header : list (string * list string)) (read : string + error)
    (elapsed : Z).

(** [func (c *defaultClient) doRequest] *)
Definition doRequest (opt : RequestOption) (a : answer) : Response + error :=
  match a with
  | BadRequest cause =>
      inr (HttpError 0 "failed to create request" (Some cause))
  | NoResponse cause => inr (HttpError 0 "request failed" (Some cause))
  | Responded status content_length header read elapsed =>
      if content_length >? MaxBodySize opt then
        inr (HttpError status
               ("response body too large: " +:+
                NilZero.string_of_int (Z.to_int content_length) +:+ " bytes")
               None)
      else
        match read with
        | inr cause =>
            inr (HttpError status "failed to read response body" (Some cause))
        | inl body => inl (mkResponse status body header elapsed)
        end
  end.

(** [func (c *defaultClient) shouldRetry(err error) bool] *)
Definition shouldRetry (err : option error) : bool :=
  match err with
  | None => false
  | Some (OtherError _) => true
  | Some (HttpError status _ _) => 500 <=? status
  end.

(** What [do] returns, and how many times it called [doRequest]. *)
Record outcome : Type := mkOutcome {
  resp : option Response;
  err : option error;
  attempts : nat
}.

(** The loop of [do], from iteration [i]: [answers k] is what the network
    answers to attempt [k], and [cancelled k] is [Some e] when, in the
    [select] after attempt [k], [ctx.Done()] is taken, with [e] what
    [ctx.Err()] returns.  [None] when [fuel] iterations do not reach the
    end of the loop. *)
Fixpoint do_loop (fuel : nat) (i : nat) (lastErr : option error)
    (opt : RequestOption) (answers : nat -> answer)
    (cancelled : nat -> option error) : option outcome :=
  match fuel with
  | O => None
  | S fuel' =>
      if Z.of_nat i <=? RetryCount opt then
        match doRequest opt (answers i) with
        | inl r => Some (mkOutcome (Some r) None (S i))
        | inr e =>
            if negb (shouldRetry (Some e)) || (Z.of_nat i =? RetryCount opt)
            then Some (mkOutcome None (Some e) (S i))
            else
              match cancelled i with
              | Some ctx_err => Some (mkOutcome None (Some ctx_err) (S i))
              | None => do_loop fuel' (S i) (Some e) opt answers cancelled
              end
        end
      else Some (mkOutcome None lastErr i)
  end.

(** The options [do] uses when [opt == nil], from the configuration's
    [HTTP.RequestTimeout] and [HTTP.MaxRequestSize]. *)
Definition default_option (request_timeout max_request_size : Z)
    : RequestOption :=
  mkRequestOption request_timeout 3 1000000000 max_request_size [].

(** [func (c *defaultClient) do], which [Get], [Post], [Put] and
    [Delete] all call. *)
Definition do (request_timeout max_request_size : Z)
    (opt : option RequestOption) (answers : nat -> answer)
    (cancelled : nat -> option error) : option outcome :=
  let opt' := match opt with
              | Some o => o
              | None => default_option request_timeout max_request_size
              end in
  do_loop (S (Z.to_nat (RetryCount opt' + 1))) 0 None opt' answers cancelled.

(** The attempts after which [do] goes round the loop again. *)
Definition retried_after (opt : RequestOption) (a : answer) : Prop :=
  exists status content_length header read elapsed,
    a = Responded status content_length header read elapsed /\
    500 <= status /\
    (MaxBodySize opt < content_length \/ exists cause, read = inr cause).

End HTTP.

(** ** logger: levels, filtering and fields *)

Module Logger.

(** [type Level int] with [Debug = iota], [Info], [Warn], [Error]. *)
Definition Level : Type := Z.
Definition Debug : Level := 0.
Definition Info : Level := 1.
Definition Warn : Level := 2.
Definition Error : Level := 3.

(** [func (l Level) String() string] *)
Definition String (l : Level) : string :=
  if l =? Debug then "DEBUG"
  else if l =? Info then "INFO"
  else if l =? Warn then "WARN"
  else if l =? Error then "ERROR"
  else "UNKNOWN".

(** [func parseLevel(level string) (Level, error)]; the error by its
    text. *)
Definition parseLevel (level : string) : Level * option string :=
  if String.eqb level "debug" then (Debug, None)
  else if String.eqb level "info" then (Info, None)
  else if String.eqb level "warn" then (Warn, None)
  else if String.eqb level "error" then (Error, None)
  else (Info, Some ("invalid log level: " +:+ level)).

Section Fields.

(** The values of log fields have type [interface{}]; they are not
    interpreted. *)
Variable value : Type.

(** [type Field struct] *)
Record Field : Type := mkField { Key : string; Value : value }.

(** [type defaultLogger struct], without its writer and its mutex. *)
Record defaultLogger : Type := mkLogger {
  level : Level;
  component : string;
  fields : list Field
}.

(** One call [l.log(ctx, level, msg, err, fields...)]. *)
Record log_call : Type := mkLogCall {
  call_level : Level;
  call_msg : string;
  call_err : option string;
  call_fields : list Field
}.

(** [func (l *defaultLogger) Debug], [Info], [Warn] and [Error]: the
    calls of [l.log] they make. *)
Definition LogDebug (l : defaultLogger) (msg : string) (fs : list Field)
    : list log_call :=
  if level l <=? Debug then [mkLogCall Debug msg None fs] else [].

Definition LogInfo (l : defaultLogger) (msg : string) (fs : list Field)
    : list log_call :=
  if level l <=? Info then [mkLogCall Info msg None fs] else [].

Definition LogWarn (l : defaultLogger) (msg : string) (fs : list Field)
    : list log_call :=
  if level l <=? Warn then [mkLogCall Warn msg None fs] else [].

Definition LogError (l : defaultLogger) (msg : string) (err : option string)
    (fs : list Field) : list log_call :=
  if level l <=? Error then [mkLogCall Error msg err fs] else [].

(** [func New(cfg *config.Config) (Logger, error)], from
    [cfg.Logger.Level] and [cfg.Logger.Output]; [open_err] is the error
    of [os.OpenFile] when the output is a file. *)
Definition New (configured_level output : string) (open_err : option string)
    : defaultLogger + string :=
  match parseLevel configured_level with
  | (_, Some err) => inr err
  | (lvl, None) =>
      if String.eqb output "stdout" || String.eqb output "stderr"
      then inl (mkLogger lvl "" [])
      else match open_err with
           | Some err => inr ("failed to open log file: " +:+ err)
           | None => inl (mkLogger lvl "" [])
           end
  end.

(** [func fieldsToMap(fields []Field) map[string]interface{}] *)
Definition fieldsToMap (fs : list Field) : gmap string value :=
  fold_left (fun m f => <[Key f := Value f]> m) fs ∅.

(** The ["fields"] object that [log] writes:
    [fieldsToMap(append(l.fields, fields...))]. *)
Definition logged_fields (l : defaultLogger) (fs : list Field)
    : gmap string value :=
  fieldsToMap (fields l ++ fs).

End Fields.

End Logger.

(** ** config: validation *)

Module Config.

(** [type Config struct]; durations in nanoseconds. *)
Record DatabaseConfig : Type := mkDatabaseConfig {
  Host : string;
  Port : Z;
  User : string;
  Password : string;
  Database : string;
  MaxOpenConns : Z;
  MaxIdleConns : Z;
  MaxLifetime : Z
}.

Record HTTPConfig : Type := mkHTTPConfig {
  HTTPPort : Z;
  ReadTimeout : Z;
  WriteTimeout : Z;
  MaxHeaderBytes : Z;
  MaxRequestSize : Z;
  RequestTimeout : Z;
  ShutdownTimeout : Z
}.

Record LoggerConfig : Type := mkLoggerConfig {
  Level : string;
  Format : string;
  Output : string;
  TimeFormat : string
}.

Record MetricsConfig : Type := mkMetricsConfig {
  Enabled : bool;
  Endpoint : string;
  PushGateway : string;
  Interval : Z
}.

Record Config : Type := mkConfig {
  database : DatabaseConfig;
  http : HTTPConfig;
  logger : LoggerConfig;
  metrics : MetricsConfig
}.

(** [validLevels[level]]: a missing key reads as [false]. *)
Definition validLevels (level : string) : bool :=
  String.eqb level "debug" || String.eqb level "info" ||
  String.eqb level "warn" || String.eqb level "error".

(** Go's [strings.ToLower] on a string of ASCII bytes. *)
Definition lower_byte (c : Ascii.ascii) : Ascii.ascii :=
  let n := Ascii.nat_of_ascii c in
  if ((65 <=? n) && (n <=? 90))%nat then Ascii.ascii_of_nat (n + 32) else c.

Fixpoint ToLower_ascii (s : string) : string :=
  match s with
  | EmptyString => EmptyString
  | String.String c rest => String.String (lower_byte c) (ToLower_ascii rest)
  end.

Section Validate.

(** [strings.ToLower], by whatever it does to the configured level. *)
Variable ToLower : string -> string.

(** [func (p *Provider) validate(config *Config) error]; the error by
    its text. *)
Definition validate (config : Config) : option string :=
  if MaxOpenConns (database config) <=? 0 then
    Some "database.maxOpenConns must be positive"
  else if MaxIdleConns (database config) <=? 0 then
    Some "database.maxIdleConns must be positive"
  else if MaxLifetime (database config) <=? 0 then
    Some "database.maxLifetime must be positive"
  else if (HTTPPort (http config) <=? 0) || (HTTPPort (http config) >? 65535) then
    Some "http.port must be between 1 and 65535"
  else if ReadTimeout (http config) <=? 0 then
    Some "http.readTimeout must be positive"
  else if WriteTimeout (http config) <=? 0 then
    Some "http.writeTimeout must be positive"
  else if negb (validLevels (ToLower (Level (logger config)))) then
    Some ("invalid logger.level: " +:+ Level (logger config))
  else if Enabled (metrics config) then
    if String.eqb (Endpoint (metrics config)) "" then
      Some "metrics.endpoint is required when metrics are enabled"
    else if Interval (metrics config) <=? 0 then
      Some "metrics.interval must be positive"
    else None
  else None.

End Validate.

End Config.

(** * Properties *)

(** ** Facts on [int64] arithmetic *)

Module Int64Facts.
Import Int64.

Lemma wrap_in_range z : in_range (wrap z).
Proof.
  unfold in_range, wrap, min_signed, max_signed, modulus.
  pose proof (Z.mod_pos_bound (z + 2 ^ 63) (2 ^ 64) ltac:(lia)). lia.
Qed.

Lemma wrap_id z : in_range z -> wrap z = z.
Proof.
  unfold in_range, wrap, min_signed, max_signed, modulus. intros Hz.
  rewrite Z.mod_small by lia. lia.
Qed.

Lemma wrap_congr z : wrap z mod modulus = z mod modulus.
Proof.
  unfold wrap, modulus.
  rewrite Zminus_mod, Zmod_mod, <- Zminus_mod. f_equal. lia.
Qed.

(** Wrapping an inner sum first does not change the wrapped outer sum. *)
Lemma wrap_add_wrap_l x y : wrap (wrap x + y) = wrap (x + y).
Proof.
  unfold wrap, modulus. f_equal.
  replace ((x + 2 ^ 63) mod 2 ^ 64 - 2 ^ 63 + y + 2 ^ 63)
    with ((x + 2 ^ 63) mod 2 ^ 64 + y) by lia.
  rewrite Zplus_mod_idemp_l. f_equal. lia.
Qed.

Lemma add_in_range x y : in_range (add x y).
Proof. apply wrap_in_range. Qed.

Lemma add_exact x y : in_range (x + y) -> add x y = x + y.
Proof. apply wrap_id. Qed.

(** The wrapped sum is the only [int64] congruent to the exact sum. *)
Lemma in_range_congr_unique a b :
  in_range a -> in_range b -> a mod modulus = b mod modulus -> a = b.
Proof.
  intros Ha Hb Hab. rewrite <- (wrap_id a Ha), <- (wrap_id b Hb).
  unfold wrap. f_equal.
  rewrite <- (Zplus_mod_idemp_l a), <- (Zplus_mod_idemp_l b). now rewrite Hab.
Qed.

End Int64Facts.

(** ** The counter *)

Module CounterSpec.
Import Int64 Int64Facts Counter.

Lemma AddInt64_wf delta c : wf (snd (AddInt64 delta c)).
Proof. apply add_in_range. Qed.

(** [n] atomic additions of [delta] amount to one wrapped addition of
    [n * delta]. *)
Lemma repeat_AddInt64 delta n : forall c,
  wf c ->
  repeat_op (AddInt64 delta) n c
  = mkCounter (wrap (value c + Z.of_nat n * delta)).
Proof.
  induction n as [|k IH]; intros [v] Hv; cbn [repeat_op].
  - cbn [value]. f_equal. unfold wf in Hv; cbn [value] in Hv.
    replace (v + Z.of_nat 0 * delta) with v by lia.
    symmetry. now apply wrap_id.
  - rewrite IH by apply AddInt64_wf.
    cbn [AddInt64 snd value]. unfold add. rewrite wrap_add_wrap_l.
    do 2 f_equal. lia.
Qed.

(** C5.  [CompareAndSwap(old, new)] on a counter holding [v]: it answers
    [true] and leaves [new] in the counter exactly when [v = old]; it
    answers [false] and leaves the counter as it was exactly when
    [v <> old].  The counter stays an [int64]. *)
Theorem CompareAndSwap_spec (c : Counter) (old new : Z) :
  wf c -> in_range old -> in_range new ->
  (value c = old <-> CompareAndSwap old new c = (true, mkCounter new)) /\
  (value c <> old <-> CompareAndSwap old new c = (false, c)) /\
  (fst (CompareAndSwap old new c) = true \/
   CompareAndSwap old new c = (false, c)) /\
  wf (snd (CompareAndSwap old new c)).
Proof.
  intros Hc Hold Hnew.
  unfold CompareAndSwap, CompareAndSwapInt64.
  destruct (Z.eqb_spec (value c) old) as [He|Hne]; cbn [fst snd].
  - split; [split; congruence|].
    split; [split; congruence|].
    split; [now left | exact Hnew].
  - split; [split; congruence|].
    split; [split; congruence|].
    split; [now right | exact Hc].
Qed.

Lemma CompareAndSwap_spec_witness :
  CompareAndSwap 5 9 (mkCounter 5) = (true, mkCounter 9) /\
  CompareAndSwap 4 9 (mkCounter 5) = (false, mkCounter 5).
Proof.
  split.
  - apply (CompareAndSwap_spec (mkCounter 5) 5 9);
      [unfold wf, in_range, min_signed, max_signed; cbn; lia
      |unfold in_range, min_signed, max_signed; lia
      |unfold in_range, min_signed, max_signed; lia
      |reflexivity].
  - apply (CompareAndSwap_spec (mkCounter 5) 4 9);
      [unfold wf, in_range, min_signed, max_signed; cbn; lia
      |unfold in_range, min_signed, max_signed; lia
      |unfold in_range, min_signed, max_signed; lia
      |cbn; lia].
Defined.

(** C6.  From any starting value, [n] calls of [Increment] followed by
    [n] calls of [Decrement] leave the counter where it started. *)
Theorem Increment_Decrement_roundtrip (c : Counter) (n : nat) :
  wf c ->
  repeat_op Decrement n (repeat_op Increment n c) = c.
Proof.
  intros Hc.
  change Increment with (AddInt64 1). change Decrement with (AddInt64 (-1)).
  rewrite (repeat_AddInt64 1 n c Hc).
  rewrite repeat_AddInt64 by apply wrap_in_range.
  cbn [value]. rewrite wrap_add_wrap_l.
  destruct c as [v]. f_equal. unfold wf in Hc; cbn in Hc |- *.
  rewrite <- (wrap_id v Hc) at 2. f_equal. lia.
Qed.

Lemma Increment_Decrement_roundtrip_witness :
  repeat_op Decrement 3 (repeat_op Increment 3 (mkCounter (2 ^ 63 - 2)))
  = mkCounter (2 ^ 63 - 2).
Proof.
  apply (Increment_Decrement_roundtrip (mkCounter (2 ^ 63 - 2)) 3).
  unfold wf, in_range, min_signed, max_signed; cbn; lia.
Defined.

Ltac int64_range := unfold wf, in_range, min_signed, max_signed; cbn; lia.

(** C7.  On a counter holding [v]: [Increment] stores and returns [v + 1],
    [Decrement] stores and returns [v - 1] with no floor at zero, [Add]
    stores and returns [v + delta] for a signed [delta], and [Value]
    returns [v] and leaves the counter alone.  The sums are Go's [int64]
    sums; they are the exact integers whenever those are [int64] values. *)
Theorem counter_methods_spec (c : Counter) (delta : Z) :
  wf c -> in_range delta ->
  let v := value c in
  (Increment c = (add v 1, mkCounter (add v 1)) /\
   (v < max_signed -> Increment c = (v + 1, mkCounter (v + 1)))) /\
  (Decrement c = (add v (-1), mkCounter (add v (-1))) /\
   (min_signed < v -> Decrement c = (v - 1, mkCounter (v - 1))) /\
   (v = 0 -> Decrement c = (-1, mkCounter (-1)))) /\
  (Add delta c = (add v delta, mkCounter (add v delta)) /\
   (in_range (v + delta) ->
    Add delta c = (v + delta, mkCounter (v + delta)))) /\
  Value c = (v, c).
Proof.
  intros Hc Hd v. unfold wf, in_range in Hc. fold v in Hc.
  unfold Increment, Decrement, Add, Value, AddInt64, LoadInt64. fold v.
  repeat split.
  - intros Hv. rewrite add_exact; [reflexivity | unfold in_range; lia].
  - intros Hv. rewrite add_exact; [reflexivity | unfold in_range; lia].
  - intros Hv. rewrite Hv. reflexivity.
  - intros Hv. rewrite add_exact; [reflexivity | exact Hv].
Qed.

Lemma counter_methods_spec_witness :
  Increment (mkCounter 41) = (42, mkCounter 42) /\
  Decrement (mkCounter 0) = (-1, mkCounter (-1)) /\
  Add (-7) (mkCounter 3) = (-4, mkCounter (-4)) /\
  Value (mkCounter 41) = (41, mkCounter 41).
Proof.
  split; [|split; [|split]].
  - apply (counter_methods_spec (mkCounter 41) 0); int64_range.
  - apply (counter_methods_spec (mkCounter 0) 0); int64_range.
  - apply (counter_methods_spec (mkCounter 3) (-7)); int64_range.
  - apply (counter_methods_spec (mkCounter 41) 0); int64_range.
Defined.

(** C9.  Counter arithmetic is two's-complement arithmetic modulo [2^64].
    [Increment], [Decrement] and [Add] are total; the value they store and
    return is the one [int64] congruent to the exact sum modulo [2^64];
    [Increment] takes [2^63 - 1] to [-2^63]. *)
Theorem counter_arithmetic_wraps (c : Counter) (delta : Z) :
  wf c -> in_range delta ->
  (forall r c', Add delta c = (r, c') ->
     c' = mkCounter r /\ in_range r /\
     r mod 2 ^ 64 = (value c + delta) mod 2 ^ 64 /\
     (forall r', in_range r' ->
        r' mod 2 ^ 64 = (value c + delta) mod 2 ^ 64 -> r' = r)) /\
  Increment c = Add 1 c /\
  Decrement c = Add (-1) c /\
  Increment (mkCounter (2 ^ 63 - 1)) = (- 2 ^ 63, mkCounter (- 2 ^ 63)) /\
  Decrement (mkCounter (- 2 ^ 63)) = (2 ^ 63 - 1, mkCounter (2 ^ 63 - 1)).
Proof.
  intros Hc Hd. split; [|repeat split].
  intros r c' Hadd. unfold Add, AddInt64 in Hadd.
  injection Hadd as Hr Hc'. subst c'. rewrite <- Hr.
  split; [reflexivity|]. split; [apply add_in_range|].
  split; [apply wrap_congr|].
  intros r' Hr' Hmod. apply in_range_congr_unique; [exact Hr'|apply add_in_range|].
  unfold modulus. rewrite Hmod. symmetry. apply wrap_congr.
Qed.

Lemma counter_arithmetic_wraps_witness :
  Add (2 ^ 63 - 1) (mkCounter (2 ^ 63 - 1)) = (-2, mkCounter (-2)) /\
  Increment (mkCounter (2 ^ 63 - 1)) = (- 2 ^ 63, mkCounter (- 2 ^ 63)).
Proof.
  split.
  - reflexivity.
  - apply (counter_arithmetic_wraps (mkCounter (2 ^ 63 - 1)) 1); int64_range.
Defined.

End CounterSpec.

(** ** The pool: invariants of the interleaving semantics *)

Module PoolInv.
Import Pool.

(** *** Weighted counts over the thread list *)

Lemma count_app f (l l' : list pc) :
  count f (l ++ l') = count f l + count f l'.
Proof. induction l as [|c l IH]; cbn; [reflexivity | rewrite IH; lia]. Qed.

Lemma count_insert f (l : list pc) i c c' :
  l !! i = Some c -> count f (<[i := c']> l) = count f l - f c + f c'.
Proof.
  revert i. induction l as [|x l IH]; intros [|i] Hi; simpl in *;
    try discriminate.
  - injection Hi as ->. lia.
  - rewrite (IH i Hi). lia.
Qed.

Lemma count_nonneg f (l : list pc) :
  (forall x, 0 <= f x) -> 0 <= count f l.
Proof.
  intros Hf. induction l as [|x l IH]; cbn; [lia | pose proof (Hf x); lia].
Qed.

Lemma count_lookup_le f (l : list pc) i c :
  (forall x, 0 <= f x) -> l !! i = Some c -> f c <= count f l.
Proof.
  intros Hf. revert i. induction l as [|x l IH]; intros [|i] Hi; simpl in *;
    try discriminate.
  - injection Hi as ->. pose proof (count_nonneg f l Hf). lia.
  - pose proof (IH i Hi). pose proof (Hf x). lia.
Qed.

Lemma count_pos_lookup f (l : list pc) :
  (forall x, 0 <= f x) -> 0 < count f l ->
  exists i c, l !! i = Some c /\ 0 < f c.
Proof.
  intros Hf. induction l as [|x l IH]; cbn; [lia|]. intros Hpos.
  destruct (Z.ltb_spec 0 (f x)) as [Hx|Hx].
  - exists O, x. split; [reflexivity | exact Hx].
  - pose proof (Hf x). destruct IH as (i & c & Hi & Hc); [lia|].
    exists (S i), c. split; [exact Hi | exact Hc].
Qed.

Lemma count_entry_zero f (calls : list call) :
  (forall c, f (entry c) = 0) -> count f (entry <$> calls) = 0.
Proof.
  intros Hf. induction calls as [|c l IH]; cbn; [reflexivity|].
  rewrite Hf. exact IH.
Qed.

Lemma holding_nonneg c : 0 <= holding c.
Proof. destruct c; cbn; lia. Qed.
Lemma counted_nonneg c : 0 <= counted c.
Proof. destruct c; cbn; lia. Qed.
Lemma critical_nonneg c : 0 <= critical c.
Proof. destruct c; cbn; lia. Qed.

(** *** Case analysis of one step *)

Ltac step_cases H Hi :=
  unfold step, Submit, Close, Submit_goroutine, goto in H;
  match type of H with
  | context [threads ?s !! ?i] =>
      destruct (threads s !! i) as [[]|] eqn:Hi
  end;
  cbv beta iota zeta delta [kind_of] in H;
  try discriminate H;
  repeat match type of H with
    | context [if mu ?p then _ else _] => destruct (mu p) eqn:?
    | context [if closed ?p then _ else _] => destruct (closed p) eqn:?
    | context [if ?a <? ?b then _ else _] => destruct (Z.ltb_spec a b)
    | context [if ?a =? ?b then _ else _] => destruct (Z.eqb_spec a b)
    end;
  try discriminate H.

(** *** Invariants of executions *)

Section Invariant.
Variable P : state -> Prop.
Hypothesis P_step : forall s i s', P s -> step s i = Next s' -> P s'.

(** What every step preserves holds along every schedule. *)
Lemma exec_invariant sched : forall s s',
  P s -> exec sched s = Some s' -> P s'.
Proof.
  induction sched as [|i rest IH]; intros s s' Hs Hex; cbn in Hex.
  - now injection Hex as <-.
  - destruct (step s i) as [s1| | | |] eqn:Hst; try discriminate.
    exact (IH _ _ (P_step _ _ _ Hs Hst) Hex).
Qed.

End Invariant.

(** *** The counting invariant *)


Lemma inv_start size p calls :
  NewPool size = Some p -> inv (start p calls).
Proof.
  unfold NewPool. destruct (Z.ltb_spec size 0) as [|Hsize]; [discriminate|].
  intros [= <-]. constructor; cbn.
  - exact Hsize.
  - symmetry. apply count_entry_zero. now intros [].
  - exact Hsize.
  - symmetry. apply count_entry_zero. now intros [].
  - apply count_entry_zero. now intros [].
Qed.

Lemma inv_step s i s' : inv s -> step s i = Next s' -> inv s'.
Proof.
  intros [Hcap Hlen Hle Hwg Hmu] H.
  pose proof (count_nonneg holding (threads s) holding_nonneg) as Hh.
  step_cases H Hi; injection H as <-;
    repeat match goal with
      | E : mu _ = _ |- _ => rewrite E in Hmu; clear E
      end;
    pose proof (count_lookup_le holding _ _ _ holding_nonneg Hi) as Hhi;
    pose proof (count_lookup_le counted _ _ _ counted_nonneg Hi) as Hci;
    constructor;
    unfold set_mu, set_wg, set_closed, set_workers_len; cbn in *;
    rewrite ?count_app, ?(count_insert _ _ _ _ _ Hi); cbn; lia.
Qed.

Lemma inv_exec sched : forall s s',
  inv s -> exec sched s = Some s' -> inv s'.
Proof. apply exec_invariant, inv_step. Qed.

(** *** What a step leaves alone *)

Lemma step_pool_stable s i s' :
  step s i = Next s' ->
  workers_cap (pool s') = workers_cap (pool s) /\
  (closed (pool s) = true -> closed (pool s') = true).
Proof.
  intros H. step_cases H Hi; injection H as <-;
    unfold set_mu, set_wg, set_closed, set_workers_len; cbn;
    (split; [reflexivity | intros; congruence]).
Qed.

(** The thread that steps is replaced in place; a goroutine, if one is
    started, is added at the end. *)
Lemma step_shape s i s' :
  step s i = Next s' ->
  exists c c',
    threads s !! i = Some c /\
    threads s' = <[i := c']> (threads s) ++
                 match c with SubmitGo => [WorkerAcquire i] | _ => [] end /\
    finished c = false /\
    owner c' = owner c /\
    (after_set c' = true ->
     after_set c = true \/ closed (pool s') = true) /\
    (c = SubmitGo -> c' = SubmitRet None).
Proof.
  intros H. step_cases H Hi; injection H as <-; cbn [threads pool];
    eexists _, _; (split; [reflexivity|]);
    (split; [rewrite ?app_nil_r; reflexivity|]);
    (split; [reflexivity|]); (split; [reflexivity|]);
    (split; [cbn; auto | intros; congruence]).
Qed.

Lemma step_other s i s' j c :
  step s i = Next s' -> j <> i ->
  threads s !! j = Some c -> threads s' !! j = Some c.
Proof.
  intros H Hne Hj.
  destruct (step_shape _ _ _ H) as (c0 & c' & _ & -> & _).
  apply lookup_app_l_Some. rewrite list_lookup_insert_ne by congruence.
  exact Hj.
Qed.

Lemma exec_pool_stable sched : forall s s',
  exec sched s = Some s' ->
  workers_cap (pool s') = workers_cap (pool s) /\
  (closed (pool s) = true -> closed (pool s') = true).
Proof.
  intros s s' Hex.
  apply (exec_invariant
           (fun t => workers_cap (pool t) = workers_cap (pool s) /\
                     (closed (pool s) = true -> closed (pool t) = true)))
    with (sched := sched) (s := s); [|auto|exact Hex].
  intros t i t' [Hc Hcl] Hst.
  destruct (step_pool_stable _ _ _ Hst) as [Hc' Hcl'].
  split; [congruence | auto].
Qed.

(** *** Workers and the calls that started them *)

Lemma owners_ok_start p calls : owners_ok (start p calls).
Proof.
  intros j c o Hj Ho. cbn in Hj. rewrite list_lookup_fmap in Hj.
  destruct (calls !! j) as [[]|]; cbn in Hj; try discriminate;
    injection Hj as <-; discriminate.
Qed.

Lemma owners_ok_step s i s' :
  owners_ok s -> step s i = Next s' -> owners_ok s'.
Proof.
  intros Hok H j c o Hj Ho.
  destruct (step_shape _ _ _ H) as (ci & ci' & Hi & Hth & Hfin & Hown & _ & Hgo).
  assert (Hstay : forall k, threads s !! k = Some (SubmitRet None) ->
                            threads s' !! k = Some (SubmitRet None)).
  { intros k Hk. eapply step_other; [exact H| |exact Hk].
    intros ->. rewrite Hi in Hk. injection Hk as ->. discriminate. }
  rewrite Hth in Hj. apply lookup_app_Some in Hj as [Hj|[Hlen Hj]].
  - destruct (decide (i = j)) as [<-|Hne].
    + rewrite list_lookup_insert_eq in Hj by (eapply lookup_lt_Some; eauto).
      injection Hj as <-. apply Hstay. eapply Hok; [exact Hi|congruence].
    + rewrite list_lookup_insert_ne in Hj by exact Hne.
      apply Hstay. exact (Hok _ _ _ Hj Ho).
  - destruct ci; try (destruct (j - _)%nat; discriminate).
    apply list_lookup_singleton_Some in Hj as [_ <-].
    cbn in Ho. injection Ho as <-.
    rewrite Hth, (Hgo eq_refl).
    apply lookup_app_l_Some, list_lookup_insert_eq.
    eapply lookup_lt_Some; eauto.
Qed.

Lemma owners_ok_exec sched : forall s s',
  owners_ok s -> exec sched s = Some s' -> owners_ok s'.
Proof. apply exec_invariant, owners_ok_step. Qed.

(** *** Once a [Close] has set the flag, it stays set *)

Lemma closed_ok_start p calls : closed_ok (start p calls).
Proof.
  intros j c Hj Hc. cbn in Hj. rewrite list_lookup_fmap in Hj.
  destruct (calls !! j) as [[]|]; cbn in Hj; try discriminate;
    injection Hj as <-; discriminate.
Qed.

Lemma closed_ok_step s i s' :
  closed_ok s -> step s i = Next s' -> closed_ok s'.
Proof.
  intros Hok H j c Hj Hc.
  destruct (step_pool_stable _ _ _ H) as [_ Hcl].
  destruct (step_shape _ _ _ H) as (ci & ci' & Hi & Hth & Hfin & _ & Hset & _).
  rewrite Hth in Hj. apply lookup_app_Some in Hj as [Hj|[Hlen Hj]].
  - destruct (decide (i = j)) as [<-|Hne].
    + rewrite list_lookup_insert_eq in Hj by (eapply lookup_lt_Some; eauto).
      injection Hj as <-. destruct (Hset Hc) as [Hc'|]; [|assumption].
      apply Hcl. exact (Hok _ _ Hi Hc').
    + rewrite list_lookup_insert_ne in Hj by exact Hne.
      apply Hcl. exact (Hok _ _ Hj Hc).
  - destruct ci; try (destruct (j - _)%nat; discriminate).
    apply list_lookup_singleton_Some in Hj as [_ <-]. discriminate.
Qed.

Lemma closed_ok_exec sched : forall s s',
  closed_ok s -> exec sched s = Some s' -> closed_ok s'.
Proof. apply exec_invariant, closed_ok_step. Qed.

(** *** No step panics *)

Lemma step_no_panic s i e : inv s -> step s i <> Panicked e.
Proof.
  intros [Hcap Hlen Hle Hwg Hmu] H.
  pose proof (count_nonneg counted (threads s) counted_nonneg) as Hc.
  step_cases H Hi;
    repeat match goal with
      | E : mu _ = _ |- _ => rewrite E in Hmu; clear E
      end;
    pose proof (count_lookup_le critical _ _ _ critical_nonneg Hi) as Hcr;
    pose proof (count_lookup_le counted _ _ _ counted_nonneg Hi) as Hco;
    cbn in *; lia.
Qed.

(** *** Progress *)





(** *** Every step uses up one of the statements that remain *)




(** *** A pool without permits admits nothing *)

Lemma no_permit_step s i s' :
  inv s -> workers_cap (pool s) = 0 ->
  Forall (fun c => admitted c = false) (threads s) ->
  step s i = Next s' ->
  Forall (fun c => admitted c = false) (threads s').
Proof.
  intros [Hcap Hlen Hle Hwg Hmu] Hzero Hall H.
  pose proof (count_nonneg holding (threads s) holding_nonneg) as Hh.
  assert (forall c, threads s !! i = Some c -> admitted c = false) as Hi'.
  { intros c Hc. exact (proj1 (Forall_lookup _ _) Hall i c Hc). }
  step_cases H Hi; injection H as <-; cbn [threads];
    try (specialize (Hi' _ eq_refl); discriminate);
    try lia;
    repeat (apply Forall_app; split);
    try (apply Forall_insert; [exact Hall | reflexivity]);
    repeat constructor.
Qed.

Lemma no_permit_exec sched : forall s s',
  inv s -> workers_cap (pool s) = 0 ->
  Forall (fun c => admitted c = false) (threads s) ->
  exec sched s = Some s' ->
  Forall (fun c => admitted c = false) (threads s').
Proof.
  intros s s' Hinv Hzero Hall Hex.
  apply (exec_invariant
           (fun t => inv t /\ workers_cap (pool t) = 0 /\
                     Forall (fun c => admitted c = false) (threads t)))
    with (sched := sched) (s := s); [|auto|exact Hex].
  intros t i t' (Hi & Hz & Ha) Hst.
  split; [eapply inv_step; eauto|]. split.
  - destruct (step_pool_stable _ _ _ Hst) as [-> _]. exact Hz.
  - eapply no_permit_step; eauto.
Qed.

Lemma no_permit_start p calls :
  Forall (fun c => admitted c = false) (threads (start p calls)).
Proof.
  cbn. induction calls as [|[] l IH]; cbn; constructor; auto.
Qed.

(** *** A [Submit] that finds the pool closed *)

Lemma rejecting_step s k s' i c :
  closed (pool s) = true ->
  threads s !! i = Some c -> rejecting c = true ->
  step s k = Next s' ->
  exists c', threads s' !! i = Some c' /\ rejecting c' = true.
Proof.
  intros Hcl Hi Hc H.
  destruct (decide (i = k)) as [->|Hne].
  - pose proof (lookup_lt_Some _ _ _ Hi) as Hlt.
    step_cases H Hk; injection H as <-; cbn [threads];
      try rewrite Hk in Hi; injection Hi as <-; try discriminate;
      eexists; (split; [apply list_lookup_insert_eq; exact Hlt | reflexivity]).
  - exists c. split; [|exact Hc]. eapply step_other; eauto.
Qed.

Lemma rejecting_exec sched : forall s s' i c,
  closed (pool s) = true ->
  threads s !! i = Some c -> rejecting c = true ->
  exec sched s = Some s' ->
  exists c', threads s' !! i = Some c' /\ rejecting c' = true.
Proof.
  intros s s' i c Hcl Hi Hc Hex.
  apply (exec_invariant
           (fun t => closed (pool t) = true /\
                     exists c', threads t !! i = Some c' /\
                                rejecting c' = true))
    with (sched := sched) (s := s); [|eauto|exact Hex].
  intros t k t' (Hclt & ct & Hit & Hct) Hst.
  split; [exact (proj2 (step_pool_stable _ _ _ Hst) Hclt)|].
  eapply rejecting_step; eauto.
Qed.

(** *** One thread on its own *)

Lemma run_alone_step fuel i s s' :
  step s i = Next s' -> run_alone (S fuel) i s = run_alone fuel i s'.
Proof. intros H. cbn. now rewrite H. Qed.

Lemma run_alone_stop fuel i s :
  step s i = Finished \/ step s i = Blocked -> run_alone fuel i s = Next s.
Proof. intros [H|H]; destruct fuel; cbn; rewrite ?H; reflexivity. Qed.

Ltac pool_simpl :=
  unfold step, Submit, Close, Submit_goroutine, goto,
    set_mu, set_wg, set_closed, set_workers_len;
  cbn [threads pool mu closed wg workers_len workers_cap activeJobs].

Ltac alone_next Hi Hlt :=
  erewrite run_alone_step;
  [| pool_simpl;
     first [ rewrite Hi
           | rewrite list_lookup_insert_eq
               by (rewrite ?length_insert; exact Hlt) ];
     reflexivity ].

Ltac alone_end Hlt :=
  rewrite run_alone_stop;
  [| pool_simpl;
     rewrite list_lookup_insert_eq by (rewrite ?length_insert; exact Hlt);
     auto ].

(** A [Submit] call that runs alone on a closed pool returns the error
    after three statements; it leaves the pool as it was and starts no
    goroutine. *)
Lemma Submit_alone_closed s i :
  threads s !! i = Some SubmitLock ->
  closed (pool s) = true -> mu (pool s) = false ->
  forall fuel, (3 <= fuel)%nat ->
    run_alone fuel i s
    = Next (mkState (pool s)
              (<[i := SubmitRet (Some ErrPoolClosed)]> (threads s))).
Proof.
  intros Hi Hcl Hmu fuel Hfuel.
  pose proof (lookup_lt_Some _ _ _ Hi) as Hlt.
  destruct s as [[cap len w aj cl m] l]; cbn in Hi, Hcl, Hmu, Hlt |- *.
  subst cl m.
  destruct fuel as [|[|[|n]]]; try lia.
  alone_next Hi Hlt. alone_next Hi Hlt. alone_next Hi Hlt.
  alone_end Hlt.
  now rewrite !list_insert_insert_eq.
Qed.

(** A [Submit] call that runs alone on an open pool returns [nil] after
    five statements, none of which waits: the counter is one higher and
    the goroutine for the task stands before its send on [workers]. *)
Lemma Submit_alone_open s i :
  inv s ->
  threads s !! i = Some SubmitLock ->
  closed (pool s) = false -> mu (pool s) = false ->
  forall fuel, (5 <= fuel)%nat ->
    run_alone fuel i s
    = Next (mkState (set_wg (wg (pool s) + 1) (pool s))
              (<[i := SubmitRet None]> (threads s) ++ [WorkerAcquire i])).
Proof.
  intros [_ _ _ Hwg _] Hi Hcl Hmu fuel Hfuel.
  pose proof (lookup_lt_Some _ _ _ Hi) as Hlt.
  pose proof (count_nonneg counted (threads s) counted_nonneg) as Hnn.
  destruct s as [[cap len w aj cl m] l]; cbn in Hi, Hcl, Hmu, Hlt, Hwg, Hnn |- *.
  subst cl m.
  destruct fuel as [|[|[|[|[|n]]]]]; try lia.
  alone_next Hi Hlt. alone_next Hi Hlt. alone_next Hi Hlt.
  erewrite run_alone_step;
    [| pool_simpl;
       rewrite list_lookup_insert_eq by (rewrite ?length_insert; exact Hlt);
       destruct (Z.ltb_spec (w + 1) 0); [lia | reflexivity] ].
  alone_next Hi Hlt.
  rewrite run_alone_stop.
  - unfold set_wg; cbn. now rewrite !list_insert_insert_eq.
  - left. pool_simpl. rewrite lookup_app_l by (rewrite !length_insert; exact Hlt).
    rewrite list_lookup_insert_eq by (rewrite ?length_insert; exact Hlt).
    reflexivity.
Qed.


(** *** A thread stays in its function *)

Lemma kind_step s k s' i c :
  threads s !! i = Some c -> step s k = Next s' ->
  exists c', threads s' !! i = Some c' /\ kind_of c' = kind_of c.
Proof.
  intros Hi H.
  destruct (decide (i = k)) as [->|Hne].
  - pose proof (lookup_lt_Some _ _ _ Hi) as Hlt.
    step_cases H Hk; injection H as <-; cbn [threads];
      try rewrite Hk in Hi; injection Hi as <-;
      eexists;
      (split;
       [first [ apply list_lookup_insert_eq; exact Hlt
              | apply lookup_app_l_Some, list_lookup_insert_eq; exact Hlt ]
       | reflexivity]).
  - exists c. split; [|reflexivity]. eapply step_other; eauto.
Qed.

Lemma kind_exec sched : forall s s' i c,
  threads s !! i = Some c -> exec sched s = Some s' ->
  exists c', threads s' !! i = Some c' /\ kind_of c' = kind_of c.
Proof.
  intros s s' i c Hi Hex.
  apply (exec_invariant
           (fun t => exists c', threads t !! i = Some c' /\
                                kind_of c' = kind_of c))
    with (sched := sched) (s := s); [|eauto|exact Hex].
  intros t k t' (ct & Hit & Hkt) Hst.
  destruct (kind_step _ _ _ _ _ Hit Hst) as (c' & Hc' & Hk').
  exists c'. split; [exact Hc' | congruence].
Qed.

(** A [Submit] call waits for nothing but the mutex. *)
Lemma Submit_waits_for_mutex_only s i c :
  threads s !! i = Some c -> kind_of c = InSubmit -> step s i = Blocked ->
  c = SubmitLock /\ mu (pool s) = true.
Proof.
  intros Hi Hk H. step_cases H Hi'; try rewrite Hi' in Hi;
    injection Hi as <-; try discriminate; auto.
Qed.

(** [wg.Wait()] lets a [Close] call through exactly when the counter is
    zero, and then no accepted task is left unfinished. *)
Lemma Close_wait s i :
  inv s -> threads s !! i = Some CloseWait ->
  (step s i = Blocked <-> wg (pool s) <> 0) /\
  (forall s', step s i = Next s' ->
     s' = mkState (pool s) (<[i := CloseRet]> (threads s)) /\
     Forall (fun c => pending c = false) (threads s)).
Proof.
  intros [_ _ _ Hwg _] Hi. unfold step, Submit, Close, Submit_goroutine, goto. rewrite Hi.
  destruct (Z.eqb_spec (wg (pool s)) 0) as [Hz|Hnz].
  - split; [split; [discriminate | intros; lia]|].
    intros s' [= <-]. split; [reflexivity|].
    apply Forall_lookup. intros j c Hj.
    pose proof (count_lookup_le counted _ _ _ counted_nonneg Hj).
    destruct c; cbn in *; try reflexivity; lia.
  - split; [split; [auto | reflexivity] | discriminate].
Qed.

End PoolInv.

(** ** The pool: the claims *)

Module PoolSpec.
Import Pool PoolInv.

(** C1.  The check of [closed] and [wg.Add(1)] are not one critical
    section: [Submit] unlocks the mutex in between.  With one [Submit]
    and one [Close], the schedule [race_schedule] lets [Close] set the
    flag, wait on a zero counter and return while the [Submit] call stands
    between its [Unlock] and its [Add]; the [Submit] call then returns
    [nil], and its task is started and has not run when [Close] has
    already returned. *)
Theorem Close_returns_before_accepted_task :
  NewPool 1 = Some (mkPool 1 0 0 0 false false) /\
  (* the Submit call has unlocked and not yet counted its task *)
  exec (take 3 race_schedule)
    (start (mkPool 1 0 0 0 false false) race_calls)
  = Some (mkState (mkPool 1 0 0 0 false false) [SubmitAdd; CloseLock]) /\
  (* Close has returned, Submit has returned nil, the worker waits to run *)
  exec race_schedule (start (mkPool 1 0 0 0 false false) race_calls)
  = Some (mkState (mkPool 1 0 1 0 true false)
            [SubmitRet None; CloseRet; WorkerAcquire 0]) /\
  pending (WorkerAcquire 0) = true /\
  ~ task_ran 0 (mkState (mkPool 1 0 1 0 true false)
                  [SubmitRet None; CloseRet; WorkerAcquire 0]).
Proof.
  split; [reflexivity|]. split; [reflexivity|].
  split; [reflexivity|]. split; [reflexivity|].
  intros (j & c & Hj & Ho & Hp).
  destruct j as [|[|[|j]]]; cbn in Hj; try discriminate;
    injection Hj as <-; discriminate.
Qed.

(** C2.  In a pool built by [NewPool(limit)] with [limit >= 1], whatever
    the calls and the schedule, the workers that hold a permit (between
    their send on [workers] and their receive) are never more than
    [limit]; their number is what [ActiveTasks] reads. *)
Theorem concurrency_limit (limit : Z) (p : Pool) (calls : list call)
    (sched : list nat) (s : state) :
  1 <= limit ->
  NewPool limit = Some p ->
  exec sched (start p calls) = Some s ->
  0 <= executing s <= limit /\ executing s = ActiveTasks (pool s).
Proof.
  intros Hlimit Hnew Hex.
  pose proof (inv_exec _ _ _ (inv_start _ _ calls Hnew) Hex)
    as [Hcap Hlen Hle Hwg Hmu].
  destruct (exec_pool_stable _ _ _ Hex) as [Hc _]. cbn in Hc.
  assert (workers_cap p = limit) as Hp.
  { unfold NewPool in Hnew. destruct (limit <? 0); [discriminate|].
    now injection Hnew as <-. }
  unfold executing, ActiveTasks.
  pose proof (count_nonneg holding (threads s) holding_nonneg). lia.
Qed.

Lemma concurrency_limit_witness :
  0 <= executing
         (mkState (mkPool 1 1 2 0 false false)
            [SubmitRet None; SubmitRet None; SubmitLock;
             WorkerRelease 0; WorkerAcquire 1]) <= 1.
Proof.
  apply (concurrency_limit 1 (mkPool 1 0 0 0 false false)
           [CallSubmit; CallSubmit; CallSubmit]
           [0; 0; 0; 0; 0; 1; 1; 1; 1; 1; 3; 3]%nat
           (mkState (mkPool 1 1 2 0 false false)
              [SubmitRet None; SubmitRet None; SubmitLock;
               WorkerRelease 0; WorkerAcquire 1]));
    [lia | reflexivity | reflexivity].
Defined.

(** C3.  A [Submit] call that has not begun, in any state the pool can
    reach.  If [Close] has set the flag (every [Close] call past its
    assignment, a returned one included, means it has), then under every
    continuation the call stays on the path to the "pool is closed" return,
    no goroutine is started for its task and the task body never runs; run
    alone it returns the error at once and leaves the pool untouched.  If
    the flag is not set, the call run alone returns [nil] after [Add(1)]
    and [go], with its worker still before its send, whatever the other
    workers do.  In every continuation the call waits for nothing but the
    mutex, and never panics. *)
Theorem Submit_closed_or_open (size : Z) (p : Pool) (calls : list call)
    (sched : list nat) (s : state) (i : nat) :
  NewPool size = Some p ->
  exec sched (start p calls) = Some s ->
  threads s !! i = Some SubmitLock ->
  ((exists j c, threads s !! j = Some c /\ after_set c = true) ->
   closed (pool s) = true) /\
  (closed (pool s) = true ->
   (forall sched' s', exec sched' s = Some s' ->
      (exists c, threads s' !! i = Some c /\ rejecting c = true) /\
      ~ spawned i s' /\ ~ task_ran i s') /\
   (mu (pool s) = false -> forall fuel, (3 <= fuel)%nat ->
      run_alone fuel i s
      = Next (mkState (pool s)
                (<[i := SubmitRet (Some ErrPoolClosed)]> (threads s))))) /\
  (closed (pool s) = false -> mu (pool s) = false ->
   forall fuel, (5 <= fuel)%nat ->
     run_alone fuel i s
     = Next (mkState (set_wg (wg (pool s) + 1) (pool s))
               (<[i := SubmitRet None]> (threads s) ++ [WorkerAcquire i]))) /\
  (forall sched' s', exec sched' s = Some s' ->
     (step s' i = Blocked ->
      threads s' !! i = Some SubmitLock /\ mu (pool s') = true) /\
     (forall e, step s' i <> Panicked e)).
Proof.
  intros Hnew Hex Hi.
  pose proof (inv_exec _ _ _ (inv_start _ _ calls Hnew) Hex) as Hinv.
  pose proof (owners_ok_exec _ _ _ (owners_ok_start p calls) Hex) as Hown.
  pose proof (closed_ok_exec _ _ _ (closed_ok_start p calls) Hex) as Hclo.
  split; [|split; [|split]].
  - intros (j & c & Hj & Hc). exact (Hclo _ _ Hj Hc).
  - intros Hcl. split.
    + intros sched' s' Hex'.
      destruct (rejecting_exec _ _ _ _ _ Hcl Hi eq_refl Hex')
        as (c & Hc & Hrej).
      pose proof (owners_ok_exec _ _ _ Hown Hex') as Hown'.
      assert (~ spawned i s') as Hns.
      { intros (j & w & Hj & Hw). pose proof (Hown' _ _ _ Hj Hw) as Hret.
        rewrite Hc in Hret. injection Hret as ->. discriminate. }
      split; [eauto|]. split; [exact Hns|].
      intros (j & w & Hj & Hw & _). apply Hns. exists j, w. auto.
    + intros Hmu. now apply Submit_alone_closed.
  - intros Hcl Hmu. now apply Submit_alone_open.
  - intros sched' s' Hex'.
    destruct (kind_exec _ _ _ _ _ Hi Hex') as (c & Hc & Hk).
    split.
    + intros Hb.
      destruct (Submit_waits_for_mutex_only _ _ _ Hc Hk Hb) as [-> Hm].
      auto.
    + intros e. apply step_no_panic. eapply inv_exec; eauto.
Qed.

Lemma Submit_closed_or_open_witness :
  run_alone 3 0
    (mkState (mkPool 2 0 0 0 true false) [SubmitLock; CloseRet; SubmitLock])
  = Next (mkState (mkPool 2 0 0 0 true false)
            [SubmitRet (Some ErrPoolClosed); CloseRet; SubmitLock]).
Proof.
  destruct (Submit_closed_or_open 2 (mkPool 2 0 0 0 false false)
              [CallSubmit; CallClose; CallSubmit] [1; 1; 1; 1]%nat
              (mkState (mkPool 2 0 0 0 true false)
                 [SubmitLock; CloseRet; SubmitLock]) 0%nat
              eq_refl eq_refl eq_refl) as (_ & Hclosed & _).
  destruct (Hclosed eq_refl) as [_ Halone].
  exact (Halone eq_refl 3%nat (le_n 3)).
Defined.

(** The claim of C4 as the specification words it fails at [limit = 0]:
    [NewPool(0)] returns a pool. *)
Lemma NewPool_zero_not_rejected :
  0 < 1 /\ NewPool 0 = Some (mkPool 0 0 0 0 false false) /\ NewPool 0 <> None.
Proof. split; [lia|]. split; [reflexivity | discriminate]. Qed.

(** C4, amended.  [NewPool(limit)] fails at construction exactly when
    [limit] is negative (the allocation of the channel panics).
    [NewPool(0)] returns a pool without permits: it accepts tasks, and in
    no execution is any of them admitted or run. *)
Theorem NewPool_rejects_negative_limit (limit : Z) :
  (limit < 0 <-> NewPool limit = None) /\
  (limit = 0 ->
   exists p, NewPool limit = Some p /\ workers_cap p = 0 /\
     forall calls sched s, exec sched (start p calls) = Some s ->
       executing s = 0 /\
       Forall (fun c => admitted c = false) (threads s) /\
       forall i, ~ task_ran i s).
Proof.
  split.
  - unfold NewPool. destruct (Z.ltb_spec limit 0); split; intros;
      try reflexivity; try discriminate; lia.
  - intros ->. eexists. split; [reflexivity|]. split; [reflexivity|].
    intros calls sched s Hex.
    pose proof (inv_exec _ _ _ (inv_start 0 _ calls eq_refl) Hex) as Hinv.
    pose proof (no_permit_exec _ _ _ (inv_start 0 _ calls eq_refl) eq_refl
                  (no_permit_start _ calls) Hex) as Hall.
    destruct Hinv as [Hcap Hlen Hle Hwg Hmu].
    destruct (exec_pool_stable _ _ _ Hex) as [Hc _]. cbn in Hc.
    pose proof (count_nonneg holding (threads s) holding_nonneg).
    split; [unfold executing; lia|]. split; [exact Hall|].
    intros i (j & c & Hj & _ & Hp).
    pose proof (proj1 (Forall_lookup _ _) Hall j c Hj) as Hadm.
    destruct c; discriminate.
Qed.

Lemma NewPool_rejects_negative_limit_witness :
  NewPool (-1) = None /\
  executing (mkState (mkPool 0 0 1 0 false false)
               [SubmitRet None; WorkerAcquire 0]) = 0.
Proof.
  split.
  - apply (NewPool_rejects_negative_limit (-1)). lia.
  - destruct (proj2 (NewPool_rejects_negative_limit 0) eq_refl)
      as (p & Hp & _ & Hnever).
    injection Hp as <-.
    apply (Hnever [CallSubmit] [0; 0; 0; 0; 0]%nat). reflexivity.
Defined.



End PoolSpec.

(** ** Further properties of the counter *)

Module CounterUses.
Import Int64 Int64Facts Counter CounterSpec Uses.

Lemma add_all_closed_form ds : forall c,
  wf c -> add_all ds c = mkCounter (wrap (value c + sum_deltas ds)).
Proof.
  unfold add_all.
  induction ds as [|d ds IH]; intros [v] Hv; cbn [fold_left sum_deltas fold_right].
  - cbn [value]. unfold wf in Hv; cbn [value] in Hv.
    rewrite Z.add_0_r, wrap_id by exact Hv. reflexivity.
  - rewrite IH by apply AddInt64_wf.
    cbn [Add AddInt64 snd value]. unfold add. rewrite wrap_add_wrap_l.
    do 2 f_equal. fold (sum_deltas ds). lia.
Qed.

Lemma sum_deltas_Permutation ds ds' :
  Permutation ds ds' -> sum_deltas ds = sum_deltas ds'.
Proof.
  induction 1; cbn; unfold sum_deltas in *; cbn in *; lia.
Qed.

(** X1.  No update is lost, whatever the interleaving: after the [Add] calls
    of a list of deltas, linearised in any order, the counter holds the
    wrapped sum of its starting value and all the deltas, and the exact
    sum when that is an [int64]. *)
Theorem Add_order_irrelevant (c : Counter) (ds ds' : list Z) :
  wf c -> Permutation ds ds' ->
  add_all ds c = add_all ds' c /\
  value (add_all ds c) = wrap (value c + sum_deltas ds) /\
  (in_range (value c + sum_deltas ds) ->
   value (add_all ds c) = value c + sum_deltas ds).
Proof.
  intros Hc Hperm.
  rewrite !add_all_closed_form by exact Hc.
  rewrite (sum_deltas_Permutation _ _ Hperm). cbn [value].
  split; [reflexivity|]. split; [reflexivity|]. apply wrap_id.
Qed.

Lemma Add_order_irrelevant_witness :
  add_all [5; -7; 2 ^ 63 - 1] (mkCounter 3)
  = add_all [2 ^ 63 - 1; 5; -7] (mkCounter 3).
Proof.
  apply (Add_order_irrelevant (mkCounter 3) [5; -7; 2 ^ 63 - 1]
           [2 ^ 63 - 1; 5; -7]).
  - unfold wf, in_range, min_signed, max_signed; cbn; lia.
  - apply Permutation_sym, (Permutation_cons_app [5; -7] []).
    rewrite app_nil_r. apply Permutation_refl.
Defined.

End CounterUses.

(** ** Further properties of the pool *)

Module PoolUses.
Import Pool PoolInv Uses.

Lemma count_le f g (l : list pc) :
  (forall c, f c <= g c) -> count f l <= count g l.
Proof.
  intros Hfg. induction l as [|c l IH]; cbn; [lia | pose proof (Hfg c); lia].
Qed.

Lemma count_two_lookup f (l : list pc) : forall i j a b,
  (forall x, 0 <= f x) -> i <> j ->
  l !! i = Some a -> l !! j = Some b -> f a + f b <= count f l.
Proof.
  intros i j a b Hf. revert i j.
  induction l as [|x l IH]; intros [|i] [|j] Hne Hi Hj; simpl in *;
    try discriminate; try congruence.
  - injection Hi as ->.
    pose proof (count_lookup_le f l j b Hf Hj). lia.
  - injection Hj as ->.
    pose proof (count_lookup_le f l i a Hf Hi). lia.
  - pose proof (IH i j ltac:(congruence) Hi Hj). pose proof (Hf x). lia.
Qed.

Lemma owned_by_nonneg i c : 0 <= owned_by i c.
Proof. unfold owned_by. destruct (owner c); [destruct (Nat.eqb _ _)|]; lia. Qed.

Lemma owned_by_pos i c : 0 < owned_by i c -> owner c = Some i.
Proof.
  unfold owned_by. destruct (owner c) as [o|]; [|lia].
  destruct (Nat.eqb_spec o i) as [->|]; [reflexivity | lia].
Qed.

Lemma reachable_inv size p calls sched s :
  NewPool size = Some p -> exec sched (start p calls) = Some s -> inv s.
Proof. intros Hnew. apply inv_exec, (inv_start size), Hnew. Qed.

(** *** Mutual exclusion *)

(** X2.  In every state a pool can reach, at most one thread stands between
    [p.mu.Lock()] and [p.mu.Unlock()], and the mutex is held exactly when
    one does. *)
Theorem mutex_exclusive (size : Z) (p : Pool) (calls : list call)
    (sched : list nat) (s : state) :
  NewPool size = Some p ->
  exec sched (start p calls) = Some s ->
  (forall i j ci cj,
     threads s !! i = Some ci -> threads s !! j = Some cj ->
     critical ci = 1 -> critical cj = 1 -> i = j) /\
  (mu (pool s) = true <->
   exists i ci, threads s !! i = Some ci /\ critical ci = 1).
Proof.
  intros Hnew Hex.
  pose proof (reachable_inv _ _ _ _ _ Hnew Hex) as [_ _ _ _ Hmu].
  split.
  - intros i j ci cj Hi Hj Hci Hcj.
    destruct (decide (i = j)) as [|Hne]; [assumption|].
    pose proof (count_two_lookup critical _ _ _ _ _ critical_nonneg Hne Hi Hj).
    destruct (mu (pool s)); cbn in Hmu; lia.
  - split.
    + intros Hm. rewrite Hm in Hmu. cbn in Hmu.
      destruct (count_pos_lookup critical (threads s) critical_nonneg)
        as (i & c & Hi & Hc); [lia|].
      exists i, c. split; [exact Hi|]. destruct c; cbn in *; lia.
    + intros (i & c & Hi & Hc).
      pose proof (count_lookup_le critical _ _ _ critical_nonneg Hi).
      destruct (mu (pool s)); [reflexivity | cbn in Hmu; lia].
Qed.

Lemma mutex_exclusive_witness :
  mu (mkPool 1 0 0 0 false true) = true <->
  exists i ci, [SubmitUnlock; CloseLock] !! i = Some ci /\ critical ci = 1.
Proof.
  apply (mutex_exclusive 1 (mkPool 1 0 0 0 false false)
           [CallSubmit; CallClose] [0; 0]%nat
           (mkState (mkPool 1 0 0 0 false true) [SubmitUnlock; CloseLock]));
    reflexivity.
Defined.

(** *** Accounting *)



(** *** One goroutine per accepted task *)

Lemma spawn_ok_start p calls : spawn_ok (start p calls).
Proof.
  intros i. cbn [start threads]. rewrite list_lookup_fmap.
  replace (count (owned_by i) (entry <$> calls)) with 0
    by (symmetry; apply count_entry_zero; now intros []).
  destruct (calls !! i) as [[]|]; reflexivity.
Qed.

Lemma step_spawn_shape s i s' :
  step s i = Next s' ->
  exists c c',
    threads s !! i = Some c /\
    threads s' = <[i := c']> (threads s) ++
                 match c with SubmitGo => [WorkerAcquire i] | _ => [] end /\
    owner c' = owner c /\
    returned_nil (Some c) = 0 /\
    returned_nil (Some c') = match c with SubmitGo => 1 | _ => 0 end.
Proof.
  intros H. step_cases H Hi; injection H as <-; cbn [threads pool];
    eexists _, _; (split; [reflexivity|]);
    (split; [rewrite ?app_nil_r; reflexivity|]);
    repeat split.
Qed.

Lemma spawn_ok_step s k s' :
  spawn_ok s -> step s k = Next s' -> spawn_ok s'.
Proof.
  intros Hok H i. specialize (Hok i).
  destruct (step_spawn_shape _ _ _ H) as (c & c' & Hk & -> & Hown & Hold & Hnew).
  pose proof (lookup_lt_Some _ _ _ Hk) as Hlt.
  assert (owned_by i c' = owned_by i c) as Hob
    by (unfold owned_by; now rewrite Hown).
  rewrite count_app, (count_insert _ _ _ _ _ Hk), Hob.
  destruct (decide (i = k)) as [->|Hne].
  - rewrite Hk in Hok. rewrite Hold in Hok.
    rewrite lookup_app_l by (rewrite length_insert; exact Hlt).
    rewrite list_lookup_insert_eq by exact Hlt. rewrite Hnew.
    destruct c; cbn; rewrite ?Nat.eqb_refl; lia.
  - assert (count (owned_by i)
              match c with SubmitGo => [WorkerAcquire k] | _ => [] end = 0)
      as ->.
    { destruct c; try reflexivity. cbn.
      destruct (Nat.eqb_spec k i); [congruence | reflexivity]. }
    rewrite lookup_app.
    rewrite list_lookup_insert_ne by congruence.
    destruct (threads s !! i) as [ci|] eqn:Hi; [rewrite <- Hok; lia|].
    replace (returned_nil _) with 0; [cbn in Hok; lia|].
    destruct c; destruct (i - _)%nat; reflexivity.
Qed.

Lemma spawn_ok_exec sched : forall s s',
  spawn_ok s -> exec sched s = Some s' -> spawn_ok s'.
Proof. apply exec_invariant, spawn_ok_step. Qed.

(** X4.  Every accepted task is started once: in every state a pool can
    reach, a [Submit] call that has returned [nil] has exactly one
    goroutine, and a call that has not (yet) returned [nil] has none. *)
Theorem one_goroutine_per_accepted_task (size : Z) (p : Pool)
    (calls : list call) (sched : list nat) (s : state) (i : nat) :
  NewPool size = Some p ->
  exec sched (start p calls) = Some s ->
  (threads s !! i = Some (SubmitRet None) ->
   (exists j c, threads s !! j = Some c /\ owner c = Some i) /\
   (forall j j' c c',
      threads s !! j = Some c -> owner c = Some i ->
      threads s !! j' = Some c' -> owner c' = Some i -> j = j')) /\
  (threads s !! i <> Some (SubmitRet None) -> ~ spawned i s).
Proof.
  intros Hnew Hex.
  pose proof (spawn_ok_exec _ _ _ (spawn_ok_start p calls) Hex i) as Hok.
  assert (forall j c, threads s !! j = Some c -> owner c = Some i ->
                      owned_by i c = 1) as Hone.
  { intros j c _ Ho. unfold owned_by. now rewrite Ho, Nat.eqb_refl. }
  split.
  - intros Hi. rewrite Hi in Hok. cbn in Hok. split.
    + destruct (count_pos_lookup (owned_by i) (threads s) (owned_by_nonneg i))
        as (j & c & Hj & Hc); [lia|].
      exists j, c. split; [exact Hj | now apply owned_by_pos].
    + intros j j' c c' Hj Hc Hj' Hc'.
      destruct (decide (j = j')) as [|Hne]; [assumption|].
      pose proof (count_two_lookup (owned_by i) _ _ _ _ _
                    (owned_by_nonneg i) Hne Hj Hj').
      rewrite (Hone _ _ Hj Hc), (Hone _ _ Hj' Hc') in *. lia.
  - intros Hi (j & c & Hj & Hc).
    pose proof (count_lookup_le (owned_by i) _ _ _ (owned_by_nonneg i) Hj).
    rewrite (Hone _ _ Hj Hc) in *.
    destruct (threads s !! i) as [[| | | | | |[]| | | | | | | | | |]|];
      cbn in Hok; try lia. congruence.
Qed.

Lemma one_goroutine_per_accepted_task_witness :
  ~ spawned 2
      (mkState (mkPool 1 1 2 0 false false)
         [SubmitRet None; SubmitRet None; SubmitLock;
          WorkerRelease 0; WorkerAcquire 1]).
Proof.
  apply (one_goroutine_per_accepted_task 1 (mkPool 1 0 0 0 false false)
           [CallSubmit; CallSubmit; CallSubmit]
           [0; 0; 0; 0; 0; 1; 1; 1; 1; 1; 3; 3]%nat
           (mkState (mkPool 1 1 2 0 false false)
              [SubmitRet None; SubmitRet None; SubmitLock;
               WorkerRelease 0; WorkerAcquire 1]) 2%nat);
    [reflexivity | reflexivity | discriminate].
Defined.

(** *** What [Close] has waited for when it returns *)

(** X5.  When a [Close] call passes [p.wg.Wait()], every goroutine started so
    far has ended, and the task of every [Submit] call that has returned
    [nil] by then has run to its end.  (A [Submit] call that returns
    [nil] later is not covered: see C1.) *)
Theorem Close_drains_returned_submits (size : Z) (p : Pool)
    (calls : list call) (sched : list nat) (s s' : state) (k : nat) :
  NewPool size = Some p ->
  exec sched (start p calls) = Some s ->
  threads s !! k = Some CloseWait ->
  step s k = Next s' ->
  threads s' !! k = Some CloseRet /\
  wg (pool s) = 0 /\ ActiveTasks (pool s) = 0 /\
  (forall j c, threads s !! j = Some c -> kind_of c = InWorker ->
     exists i, c = WorkerExit i) /\
  (forall i, threads s !! i = Some (SubmitRet None) ->
     exists j, threads s !! j = Some (WorkerExit i) /\ task_ran i s').
Proof.
  intros Hnew Hex Hk Hst.
  pose proof (reachable_inv _ _ _ _ _ Hnew Hex) as Hinv.
  pose proof (spawn_ok_exec _ _ _ (spawn_ok_start p calls) Hex) as Hok.
  destruct (Close_wait s k Hinv Hk) as [Hb Hn].
  destruct (Hn _ Hst) as [-> Hall].
  pose proof (lookup_lt_Some _ _ _ Hk) as Hlt.
  assert (wg (pool s) = 0) as Hz.
  { destruct (Z.eq_dec (wg (pool s)) 0) as [|Hnz]; [assumption|].
    apply Hb in Hnz. congruence. }
  assert (forall j c, threads s !! j = Some c -> kind_of c = InWorker ->
                      exists i, c = WorkerExit i) as Hworkers.
  { intros j c Hj Hc. pose proof (proj1 (Forall_lookup _ _) Hall j c Hj).
    destruct c; try discriminate. eauto. }
  split; [cbn; now apply list_lookup_insert_eq|].
  split; [exact Hz|].
  split.
  { destruct Hinv as [Hcap Hlen Hle Hwg Hmu]. unfold ActiveTasks.
    pose proof (count_nonneg holding (threads s) holding_nonneg).
    assert (count holding (threads s) <= count counted (threads s))
      by (apply count_le; intros c; destruct c; cbn; lia).
    lia. }
  split; [exact Hworkers|].
  intros i Hi. specialize (Hok i). rewrite Hi in Hok. cbn in Hok.
  destruct (count_pos_lookup (owned_by i) (threads s) (owned_by_nonneg i))
    as (j & c & Hj & Hc); [lia|].
  apply owned_by_pos in Hc.
  destruct (Hworkers j c Hj) as [o ->]; [destruct c; try discriminate; reflexivity|].
  cbn in Hc. injection Hc as ->.
  exists j. split; [exact Hj|].
  exists j, (WorkerExit i). split; [|split; reflexivity].
  cbn. rewrite list_lookup_insert_ne; [exact Hj|].
  intros ->. rewrite Hk in Hj. discriminate.
Qed.

Lemma Close_drains_returned_submits_witness :
  exists j,
    [SubmitRet None; CloseWait; WorkerExit 0] !! j = Some (WorkerExit 0) /\
    task_ran 0
      (mkState (mkPool 1 0 0 0 true false)
         [SubmitRet None; CloseRet; WorkerExit 0]).
Proof.
  apply (Close_drains_returned_submits 1 (mkPool 1 0 0 0 false false)
           [CallSubmit; CallClose] [0; 0; 0; 0; 0; 1; 1; 1; 2; 2; 2; 2]%nat
           (mkState (mkPool 1 0 0 0 true false)
              [SubmitRet None; CloseWait; WorkerExit 0])
           (mkState (mkPool 1 0 0 0 true false)
              [SubmitRet None; CloseRet; WorkerExit 0]) 1%nat);
    reflexivity.
Defined.

(** *** Every call returns *)





(** *** A pool without permits *)

Lemma step_wg_monotone s k s' :
  step s k = Next s' ->
  wg (pool s) <= wg (pool s') \/
  exists o, threads s !! k = Some (WorkerDone o).
Proof.
  intros H. step_cases H Hk; injection H as <-;
    unfold set_mu, set_wg, set_closed, set_workers_len; cbn;
    first [left; lia | right; eexists; reflexivity].
Qed.

Lemma step_CloseRet s k s' j :
  step s k = Next s' -> threads s' !! j = Some CloseRet ->
  threads s !! j = Some CloseRet \/ wg (pool s) = 0.
Proof.
  intros H Hj.
  destruct (decide (j = k)) as [->|Hne].
  - right. pose proof H as H0.
    step_cases H Hk; injection H as <-; cbn [threads] in Hj;
      pose proof (lookup_lt_Some _ _ _ Hk) as Hlt;
      rewrite ?(lookup_app_l _ _ _) in Hj by (rewrite length_insert; exact Hlt);
      rewrite list_lookup_insert_eq in Hj by exact Hlt;
      try discriminate; assumption.
  - left.
    destruct (step_shape _ _ _ H) as (c & c' & Hk & Hth & _).
    rewrite Hth in Hj. apply lookup_app_Some in Hj as [Hj|[_ Hj]].
    + now rewrite list_lookup_insert_ne in Hj by congruence.
    + destruct c; destruct (j - _)%nat; discriminate.
Qed.

(** X7.  [NewPool(0)]: once a [Submit] call has returned [nil], the WaitGroup
    counter stays positive for ever, so every [Close] call that reaches
    [p.wg.Wait()] waits there in every continuation and no [Close] call
    that has not returned ever returns; the accepted task never runs. *)
Theorem zero_limit_Close_never_returns (p : Pool) (calls : list call)
    (sched : list nat) (s : state) (i : nat) :
  NewPool 0 = Some p ->
  exec sched (start p calls) = Some s ->
  threads s !! i = Some (SubmitRet None) ->
  forall sched' s', exec sched' s = Some s' ->
    0 < wg (pool s') /\
    (forall k, threads s' !! k = Some CloseWait -> step s' k = Blocked) /\
    (forall k, threads s' !! k = Some CloseRet ->
               threads s !! k = Some CloseRet) /\
    ~ task_ran i s'.
Proof.
  intros Hnew Hex Hi sched' s' Hex'.
  pose proof (reachable_inv _ _ _ _ _ Hnew Hex) as Hinv.
  pose proof (spawn_ok_exec _ _ _ (spawn_ok_start p calls) Hex) as Hok.
  assert (workers_cap (pool s) = 0) as Hcap.
  { destruct (exec_pool_stable _ _ _ Hex) as [-> _]. cbn.
    now injection Hnew as <-. }
  assert (Forall (fun c => admitted c = false) (threads s)) as Hadm.
  { eapply no_permit_exec; [| |apply no_permit_start|exact Hex].
    - exact (inv_start 0 _ calls Hnew).
    - cbn. now injection Hnew as <-. }
  assert (0 < wg (pool s)) as Hpos.
  { specialize (Hok i). rewrite Hi in Hok. cbn in Hok.
    destruct (count_pos_lookup (owned_by i) (threads s) (owned_by_nonneg i))
      as (j & w & Hj & Hw); [lia|].
    apply owned_by_pos in Hw.
    pose proof (proj1 (Forall_lookup _ _) Hadm j w Hj) as Hna.
    pose proof (count_lookup_le counted _ _ _ counted_nonneg Hj) as Hc.
    destruct Hinv as [_ _ _ Hwg _].
    destruct w; try discriminate; cbn in Hc; lia. }
  assert (inv s' /\ workers_cap (pool s') = 0 /\
          Forall (fun c => admitted c = false) (threads s') /\
          wg (pool s) <= wg (pool s') /\
          (forall k, threads s' !! k = Some CloseRet ->
                     threads s !! k = Some CloseRet)) as (Hinv' & _ & Hadm' & Hwg' & Hret).
  { apply (exec_invariant
             (fun t => inv t /\ workers_cap (pool t) = 0 /\
                       Forall (fun c => admitted c = false) (threads t) /\
                       wg (pool s) <= wg (pool t) /\
                       (forall k, threads t !! k = Some CloseRet ->
                                  threads s !! k = Some CloseRet)))
      with (sched := sched') (s := s);
      [|split; [exact Hinv|]; split; [exact Hcap|]; split; [exact Hadm|];
        split; [lia | auto]
       |exact Hex'].
    intros t k t' (Hit & Hct & Hat & Hwt & Hrt) Hst.
    split; [eapply inv_step; eauto|].
    split; [destruct (step_pool_stable _ _ _ Hst) as [-> _]; exact Hct|].
    split; [eapply no_permit_step; eauto|].
    split.
    - destruct (step_wg_monotone _ _ _ Hst) as [Hm|(o & Hk)]; [lia|].
      pose proof (proj1 (Forall_lookup _ _) Hat k _ Hk). discriminate.
    - intros j Hj. destruct (step_CloseRet _ _ _ _ Hst Hj) as [Hj'|Hz];
        [auto | lia]. }
  split; [lia|]. split; [|split; [exact Hret|]].
  - intros k Hk. unfold step, Close. rewrite Hk. cbn.
    destruct (Z.eqb_spec (wg (pool s')) 0); [lia | reflexivity].
  - intros (j & w & Hj & _ & Hp).
    pose proof (proj1 (Forall_lookup _ _) Hadm' j w Hj).
    destruct w; discriminate.
Qed.

Lemma zero_limit_Close_never_returns_witness :
  step (mkState (mkPool 0 0 1 0 true false)
          [SubmitRet None; CloseWait; WorkerAcquire 0]) 1
  = Blocked.
Proof.
  destruct (zero_limit_Close_never_returns (mkPool 0 0 0 0 false false)
              [CallSubmit; CallClose] [0; 0; 0; 0; 0]%nat
              (mkState (mkPool 0 0 1 0 false false)
                 [SubmitRet None; CloseLock; WorkerAcquire 0]) 0%nat
              eq_refl eq_refl eq_refl [1; 1; 1]%nat
              (mkState (mkPool 0 0 1 0 true false)
                 [SubmitRet None; CloseWait; WorkerAcquire 0]) eq_refl)
    as (_ & Hblocked & _).
  exact (Hblocked 1%nat eq_refl).
Defined.

End PoolUses.

(** ** The metrics collector *)

Module MetricsSpec.
Import Metrics.

Lemma labelsToString_nonempty (labels : Labels) :
  labels <> [] -> labelsToString labels <> "".
Proof.
  destruct labels as [|[k v] rest]; [congruence|]. intros _. cbn.
  destruct k; discriminate.
Qed.

Lemma split_at_separator (c : Ascii.ascii) : forall k k' r r',
  free_of c k = true -> free_of c k' = true ->
  k +:+ String.String c r = k' +:+ String.String c r' ->
  k = k' /\ r = r'.
Proof.
  induction k as [|x k IH]; intros [|x' k'] r r' Hk Hk' H; cbn in *.
  - now injection H as ->.
  - injection H as <- _. rewrite Ascii.eqb_refl in Hk'. discriminate.
  - injection H as -> _. rewrite Ascii.eqb_refl in Hk. discriminate.
  - injection H as -> H.
    apply andb_prop in Hk as [_ Hk]. apply andb_prop in Hk' as [_ Hk'].
    destruct (IH _ _ _ Hk Hk' H) as [-> ->]. auto.
Qed.

(** X8.  The key of a series tells its labels apart as long as no label key
    holds ['='] and no label value holds [';']: two such sequences of
    labels have the same key only if they are the same sequence, entry
    by entry and in the same order.  So the key of the empty sequence,
    the empty string, belongs to no other, and one map visited in two
    different orders gives two different series. *)
Theorem labelsToString_injective (labels labels' : Labels) :
  plain labels -> plain labels' ->
  (labelsToString labels = labelsToString labels' <-> labels = labels') /\
  (labelsToString labels = "" <-> labels = []).
Proof.
  intros Hp Hp'. split; [split|].
  - revert labels' Hp'.
    induction Hp as [|[k v] rest [Hk Hv] Hrest IH];
      intros [|[k' v'] rest'] Hp' H; auto.
    + symmetry in H. now apply labelsToString_nonempty in H.
    + now apply labelsToString_nonempty in H.
    + apply Forall_cons in Hp' as [[Hk' Hv'] Hrest']. cbn in *.
      apply (split_at_separator "="%char _ _ _ _ Hk Hk') in H as [-> H].
      apply (split_at_separator ";"%char _ _ _ _ Hv Hv') in H as [-> H].
      now rewrite (IH _ Hrest' H).
  - now intros ->.
  - split.
    + intros H. destruct labels as [|e rest]; [reflexivity|].
      exfalso. revert H. now apply labelsToString_nonempty.
    + intros ->. reflexivity.
Qed.

Lemma labelsToString_injective_witness :
  labelsToString [("host", "a"); ("zone", "b")]
  = labelsToString [("zone", "b"); ("host", "a")]
  <-> [("host", "a"); ("zone", "b")] = [("zone", "b"); ("host", "a")].
Proof.
  apply (labelsToString_injective [("host", "a"); ("zone", "b")]
           [("zone", "b"); ("host", "a")]);
    repeat constructor.
Defined.

Section Collector.
Variable float64 : Type.
Variable fzero : float64.
Variable fadd : float64 -> float64 -> float64.

Local Abbreviation collector := (defaultCollector float64).
Local Abbreviation Register := (@Register float64).
Local Abbreviation IncrementCounter := (IncrementCounter float64 fzero fadd).
Local Abbreviation GetCounter := (GetCounter float64 fzero).
Local Abbreviation SetGauge := (@SetGauge float64).
Local Abbreviation GetGauge := (GetGauge float64 fzero).
Local Abbreviation ObserveHistogram := (@ObserveHistogram float64).
Local Abbreviation GetHistogram := (@GetHistogram float64).
Local Abbreviation apply_call := (apply_call float64 fzero fadd).
Local Abbreviation apply_calls := (apply_calls float64 fzero fadd).

Lemma read2_write2 {V : Type} (zero : V) (m : gmap string (gmap string V))
    (n k n' k' : string) (v : V) :
  read2 zero (write2 m n k v) n' k'
  = if decide (n' = n /\ k' = k) then v else read2 zero m n' k'.
Proof.
  unfold read2, write2.
  destruct (decide (n' = n)) as [->|Hn].
  - rewrite lookup_insert_eq. cbn [default from_option id].
    destruct (decide (k' = k)) as [->|Hk].
    + rewrite lookup_insert_eq. rewrite decide_True by auto. reflexivity.
    + rewrite lookup_insert_ne by congruence.
      rewrite decide_False by (intros [_ ?]; congruence). reflexivity.
  - rewrite lookup_insert_ne by congruence.
    rewrite decide_False by (intros [? _]; congruence). reflexivity.
Qed.

Lemma apply_call_types (c : collector) (k : call float64) (n : string)
    (t : MetricType) :
  types _ c !! n = Some t -> types _ (apply_call c k) !! n = Some t.
Proof.
  intros Hn. destruct k as [n' t' d'|n' v l|n' v l|n' v l]; cbn.
  - unfold Metrics.Register.
    destruct (types _ c !! n') eqn:Hn'; cbn; [exact Hn|].
    assert (n' <> n) by congruence.
    repeat (destruct (_ =? _)); cbn; now rewrite lookup_insert_ne.
  - unfold Metrics.IncrementCounter. destruct (_ =? _); exact Hn.
  - unfold Metrics.SetGauge. destruct (_ =? _); exact Hn.
  - unfold Metrics.ObserveHistogram. destruct (_ =? _); exact Hn.
Qed.

Lemma apply_calls_types (ks : list (call float64)) : forall (c : collector) n t,
  types _ c !! n = Some t -> types _ (apply_calls ks c) !! n = Some t.
Proof.
  induction ks as [|k ks IH]; intros c n t Hn; cbn; [exact Hn|].
  apply IH, apply_call_types, Hn.
Qed.

(** X9.  A name is registered once and keeps its type: [Register] of a fresh
    name succeeds; whatever calls follow, the name still has the type it
    was registered with, and a further [Register] of it, with any type
    and description, fails and changes nothing. *)
Theorem Register_once (c : collector) (name : string) (t t' : MetricType)
    (d d' : string) (ks : list (call float64)) :
  types _ c !! name = None ->
  fst (Register name t d c) = None /\
  type_of _ (apply_calls ks (snd (Register name t d c))) name = t /\
  Register name t' d' (apply_calls ks (snd (Register name t d c)))
  = (Some ("metric " +:+ name +:+ " already registered"),
     apply_calls ks (snd (Register name t d c))).
Proof.
  intros Hfresh.
  assert (fst (Register name t d c) = None /\
          types _ (snd (Register name t d c)) !! name = Some t) as [Hok Hty].
  { unfold Metrics.Register. rewrite Hfresh. cbn [fst snd].
    split; [reflexivity|].
    repeat (destruct (_ =? _)); cbn; now rewrite lookup_insert_eq. }
  pose proof (apply_calls_types ks _ _ _ Hty) as Hty'.
  split; [exact Hok|].
  revert Hty'. generalize (apply_calls ks (snd (Register name t d c))).
  intros c2 Hty'. split.
  - unfold type_of, MetricType in *. now rewrite Hty'.
  - unfold Metrics.Register, MetricType in *. now rewrite Hty'.
Qed.

(** X10.  A counter accumulates, and only its own series: after
    [IncrementCounter(name, v, labels)] on a name whose type reads as
    [Counter], [GetCounter] of the same name and key gives the former
    reading plus [v]; every other counter series, every gauge and every
    histogram reads as before. *)
Theorem IncrementCounter_spec (c : collector) (name name' : string)
    (v : float64) (labels labels' : Labels) :
  type_of _ c name = Counter ->
  GetCounter name' labels' (IncrementCounter name v labels c)
  = (if decide (name' = name /\
                labelsToString labels' = labelsToString labels)
     then fadd (GetCounter name labels c) v
     else GetCounter name' labels' c) /\
  GetGauge name' labels' (IncrementCounter name v labels c)
  = GetGauge name' labels' c /\
  GetHistogram name' labels' (IncrementCounter name v labels c)
  = GetHistogram name' labels' c.
Proof.
  intros Hty.
  unfold Metrics.IncrementCounter, Metrics.GetCounter, Metrics.GetGauge,
    Metrics.GetHistogram, type_of in *.
  rewrite Hty, Z.eqb_refl. cbn [types counters gauges histograms].
  split; [|split; reflexivity].
  destruct (default 0 (types _ c !! name') =? Counter) eqn:Hty'.
  - apply read2_write2.
  - rewrite decide_False; [reflexivity|].
    intros [-> _]. rewrite Hty in Hty'. discriminate.
Qed.

(** X11.  A gauge holds the last value set: after [SetGauge(name, v, labels)]
    on a name registered as [Gauge], [GetGauge] of the same name and key
    gives [v]; every other gauge series, every counter and every
    histogram reads as before. *)
Theorem SetGauge_spec (c : collector) (name name' : string)
    (v : float64) (labels labels' : Labels) :
  type_of _ c name = Gauge ->
  GetGauge name' labels' (SetGauge name v labels c)
  = (if decide (name' = name /\
                labelsToString labels' = labelsToString labels)
     then v else GetGauge name' labels' c) /\
  GetCounter name' labels' (SetGauge name v labels c)
  = GetCounter name' labels' c /\
  GetHistogram name' labels' (SetGauge name v labels c)
  = GetHistogram name' labels' c.
Proof.
  intros Hty.
  unfold Metrics.SetGauge, Metrics.GetCounter, Metrics.GetGauge,
    Metrics.GetHistogram, type_of in *.
  rewrite Hty, Z.eqb_refl. cbn [types counters gauges histograms].
  split; [|split; reflexivity].
  destruct (default 0 (types _ c !! name') =? Gauge) eqn:Hty'.
  - apply read2_write2.
  - rewrite decide_False; [reflexivity|].
    intros [-> _]. rewrite Hty in Hty'. discriminate.
Qed.

(** X12.  A histogram keeps its observations in the order they were made:
    after [ObserveHistogram(name, v, labels)] on a name registered as
    [Histogram], [GetHistogram] of the same name and key gives the
    former list followed by [v]; every other series reads as before. *)
Theorem ObserveHistogram_spec (c : collector) (name name' : string)
    (v : float64) (labels labels' : Labels) :
  type_of _ c name = Histogram ->
  GetHistogram name' labels' (ObserveHistogram name v labels c)
  = (if decide (name' = name /\
                labelsToString labels' = labelsToString labels)
     then GetHistogram name labels c ++ [v]
     else GetHistogram name' labels' c) /\
  GetCounter name' labels' (ObserveHistogram name v labels c)
  = GetCounter name' labels' c /\
  GetGauge name' labels' (ObserveHistogram name v labels c)
  = GetGauge name' labels' c.
Proof.
  intros Hty.
  unfold Metrics.ObserveHistogram, Metrics.GetCounter, Metrics.GetGauge,
    Metrics.GetHistogram, type_of in *.
  rewrite Hty, Z.eqb_refl. cbn [types counters gauges histograms].
  split; [|split; reflexivity].
  destruct (default 0 (types _ c !! name') =? Histogram) eqn:Hty'.
  - apply read2_write2.
  - rewrite decide_False; [reflexivity|].
    intros [-> _]. rewrite Hty in Hty'. discriminate.
Qed.

(** X13.  A name that was never registered reads as a [Counter], the zero
    value of [MetricType]: [IncrementCounter] on it is recorded, while
    [SetGauge] and [ObserveHistogram] on it change nothing; and a later
    [Register] of the name as a counter succeeds and drops what was
    recorded. *)
Theorem unregistered_name_is_a_counter (c : collector) (name d : string)
    (v : float64) (labels : Labels) :
  types _ c !! name = None ->
  GetCounter name labels (IncrementCounter name v labels c)
  = fadd (GetCounter name labels c) v /\
  SetGauge name v labels c = c /\
  ObserveHistogram name v labels c = c /\
  fst (Register name Counter d (IncrementCounter name v labels c)) = None /\
  GetCounter name labels
    (snd (Register name Counter d (IncrementCounter name v labels c)))
  = fzero.
Proof.
  intros Hfresh.
  unfold MetricType in Hfresh.
  assert (type_of _ c name = Counter) as Hty
    by (unfold type_of, MetricType; now rewrite Hfresh).
  split.
  { destruct (IncrementCounter_spec c name name v labels labels Hty) as [-> _].
    now rewrite decide_True by auto. }
  unfold Metrics.SetGauge, Metrics.ObserveHistogram, Metrics.Register,
    Metrics.IncrementCounter, Metrics.GetCounter.
  rewrite Hty. cbn [Z.eqb Counter Gauge Histogram types].
  unfold MetricType. rewrite Hfresh. cbn [fst snd Z.eqb].
  split; [reflexivity|]. split; [reflexivity|]. split; [reflexivity|].
  unfold type_of. cbn [types counters]. rewrite lookup_insert_eq. cbn.
  unfold read2. rewrite lookup_insert_eq. cbn. now rewrite lookup_empty.
Qed.

End Collector.

Lemma Register_once_witness :
  type_of Z
    (apply_calls Z 0 Z.add [CallSetGauge Z "load" 7 [("host", "a")]]
       (snd (Register Z "load" Gauge "system load" (empty_collector Z))))
    "load"
  = Gauge.
Proof.
  apply (Register_once Z 0 Z.add (empty_collector Z) "load" Gauge Counter
           "system load" "" [CallSetGauge Z "load" 7 [("host", "a")]]).
  reflexivity.
Defined.

Lemma IncrementCounter_spec_witness :
  GetCounter Z 0 "hits" []
    (IncrementCounter Z 0 Z.add "hits" 5 [] (empty_collector Z))
  = GetCounter Z 0 "hits" [] (empty_collector Z) + 5.
Proof.
  apply (IncrementCounter_spec Z 0 Z.add (empty_collector Z) "hits" "hits"
           5 [] []).
  reflexivity.
Defined.

Lemma SetGauge_spec_witness :
  GetCounter Z 0 "hits" []
    (SetGauge Z "load" 7 []
       (snd (Register Z "load" Gauge "" (empty_collector Z))))
  = GetCounter Z 0 "hits" []
      (snd (Register Z "load" Gauge "" (empty_collector Z))).
Proof.
  apply (SetGauge_spec Z 0 (snd (Register Z "load" Gauge "" (empty_collector Z)))
           "load" "hits" 7 [] []).
  reflexivity.
Defined.

Lemma ObserveHistogram_spec_witness :
  GetCounter Z 0 "hits" []
    (ObserveHistogram Z "lat" 7 []
       (snd (Register Z "lat" Histogram "" (empty_collector Z))))
  = GetCounter Z 0 "hits" []
      (snd (Register Z "lat" Histogram "" (empty_collector Z))).
Proof.
  apply (ObserveHistogram_spec Z 0
           (snd (Register Z "lat" Histogram "" (empty_collector Z)))
           "lat" "hits" 7 [] []).
  reflexivity.
Defined.

Lemma unregistered_name_is_a_counter_witness :
  SetGauge Z "load" 7 [] (empty_collector Z) = empty_collector Z.
Proof.
  apply (unregistered_name_is_a_counter Z 0 Z.add (empty_collector Z)
           "load" "" 7 []).
  reflexivity.
Defined.

End MetricsSpec.

(** ** The database wrapper *)

Module DatabaseSpec.
Import Database.

(** X14.  [IsNoRows] looks one level deep and no further: it holds exactly of
    [sql.ErrNoRows] itself and of an [*Error] whose [Err] is
    [sql.ErrNoRows]; an [*Error] that wraps such an [*Error] is not
    recognised, and neither is another error with the same text. *)
Theorem IsNoRows_iff (err : option error) :
  (IsNoRows err = true <->
   err = Some ErrNoRows \/
   exists op query, err = Some (DbError op query (Some ErrNoRows))) /\
  (forall op query op' query',
     IsNoRows (Some (DbError op query
                       (Some (DbError op' query' (Some ErrNoRows))))) = false) /\
  IsNoRows (Some (OtherError (Error ErrNoRows))) = false.
Proof.
  split; [|split; reflexivity].
  split.
  - destruct err as [[| |op q [[| |]|]]|]; cbn; intros H; try discriminate;
      eauto.
  - intros [->|(op & q & ->)]; reflexivity.
Qed.

Lemma substring_prefix_1062 (s : string) :
  (4 <= String.length s)%nat ->
  String.substring 0 4 s = "1062" <-> exists rest, s = "1062" +:+ rest.
Proof.
  destruct s as [|a [|b [|c [|d rest]]]]; cbn [String.length]; try lia.
  intros _. cbn [String.substring].
  replace (String.substring 0 0 rest) with "" by (destruct rest; reflexivity).
  split.
  - intros [= -> -> -> ->]. exists rest. reflexivity.
  - intros (rest' & H). cbn in H. injection H as -> -> -> -> _. reflexivity.
Qed.

(** X15.  [IsDuplicate] answers only for an [*Error]; there it panics when
    [Err] is nil and when the text of [Err] has fewer than four bytes,
    and otherwise tells whether that text starts with ["1062"].  For
    every other error, nil included, it answers [false], whatever the
    text. *)
Theorem IsDuplicate_spec (err : option error) :
  (IsDuplicate err = inl true <->
   exists op query e rest,
     err = Some (DbError op query (Some e)) /\ Error e = "1062" +:+ rest) /\
  (IsDuplicate err = inr NilDereference <->
   exists op query, err = Some (DbError op query None)) /\
  (IsDuplicate err = inr SliceBoundsOutOfRange <->
   exists op query e,
     err = Some (DbError op query (Some e)) /\
     (String.length (Error e) < 4)%nat) /\
  (forall msg, IsDuplicate (Some (OtherError ("1062" +:+ msg))) = inl false).
Proof.
  unfold IsDuplicate.
  split; [|split; [|split; [|reflexivity]]].
  - split.
    + destruct err as [[| |op q [e|]]|]; try discriminate.
      destruct (Nat.ltb_spec (String.length (Error e)) 4) as [|Hlen];
        [discriminate|].
      intros H. injection H as H. apply String.eqb_eq in H.
      apply (substring_prefix_1062 _ Hlen) in H as [rest Hrest].
      exists op, q, e, rest. auto.
    + intros (op & q & e & rest & -> & He). rewrite He.
      replace (String.length ("1062" +:+ rest) <? 4)%nat with false
        by reflexivity.
      replace (String.substring 0 4 ("1062" +:+ rest)) with "1062"
        by (destruct rest; reflexivity).
      reflexivity.
  - split.
    + destruct err as [[| |op q [e|]]|]; try discriminate; eauto.
      destruct (_ <? _)%nat; discriminate.
    + intros (op & q & ->). reflexivity.
  - split.
    + destruct err as [[| |op q [e|]]|]; try discriminate.
      destruct (Nat.ltb_spec (String.length (Error e)) 4) as [Hlen|];
        [|discriminate].
      intros _. exists op, q, e. auto.
    + intros (op & q & e & -> & Hlen).
      destruct (Nat.ltb_spec (String.length (Error e)) 4); [reflexivity | lia].
Qed.


(** X17.  [Query] never hands out row data: on success the slice has one
    element per row the cursor visited, every element is the one cursor,
    and that cursor is exhausted and closed when [Query] returns. *)
Theorem Query_returns_the_closed_cursor (query : string) (cursor : nat)
    (rows : Rows) (result : list Row) (after : option (nat * Rows)) :
  Query query (inl (cursor, rows)) = (inl result, after) ->
  length result = unread rows /\
  Forall (fun r => r = RowOf cursor) result /\
  exists rows', after = Some (cursor, rows') /\
                rows_closed rows' = true /\ unread rows' = 0%nat.
Proof.
  unfold Query. destruct (iteration_error rows); [discriminate|].
  intros [= <- <-]. split; [|split].
  - induction (unread rows) as [|n IH]; cbn; [reflexivity | now rewrite IH].
  - induction (unread rows) as [|n IH]; cbn; constructor; auto.
  - eexists. split; [reflexivity|]. split; reflexivity.
Qed.

(** X18.  [Transaction] ends every transaction it begins, one way only:
    [Commit] is called exactly when the function returned nil and
    [Rollback] exactly when it returned an error.  It returns nil exactly
    when [BeginTx], the function and [Commit] all succeed; when the
    function fails and [Rollback] succeeds it returns the function's own
    error, unwrapped; when [Rollback] fails too, the function's error is
    kept only as text. *)
Theorem Transaction_spec (a : answers) :
  let calls := fst (Transaction a) in
  let result := snd (Transaction a) in
  (Commit ∈ calls <-> begin_err a = None /\ fn_err a = None) /\
  (Rollback ∈ calls <-> begin_err a = None /\ fn_err a <> None) /\
  (begin_err a = None -> RunFn ∈ calls) /\
  (begin_err a <> None -> calls = [BeginTx]) /\
  (result = None <->
   begin_err a = None /\ fn_err a = None /\ commit_err a = None) /\
  (begin_err a = None -> fn_err a <> None -> rollback_err a = None ->
   result = fn_err a) /\
  (begin_err a = None -> fn_err a <> None -> rollback_err a <> None ->
   IsNoRows result = false).
Proof.
  destruct a as [[b|] [f|] [r|] [c|]]; cbn;
    repeat split; intros; try congruence;
    repeat match goal with
      | H : _ /\ _ |- _ => destruct H
      | H : _ ∈ _ |- _ => apply list_elem_of_In in H; cbn in H
      | H : _ \/ _ |- _ => destruct H
      | |- _ ∈ _ => apply list_elem_of_In; cbn; tauto
      end;
    try congruence; try tauto.
Qed.

Lemma IsDuplicate_spec_witness :
  IsDuplicate (Some (DbError "exec" "INSERT" (Some (OtherError "boo"))))
  = inr SliceBoundsOutOfRange.
Proof.
  apply (IsDuplicate_spec
           (Some (DbError "exec" "INSERT" (Some (OtherError "boo"))))).
  exists "exec", "INSERT", (OtherError "boo"). split; [reflexivity | cbn; lia].
Defined.


Lemma Query_returns_the_closed_cursor_witness :
  length [RowOf 7; RowOf 7] = 2%nat /\
  Forall (fun r => r = RowOf 7) [RowOf 7; RowOf 7] /\
  exists rows', Some (7%nat, mkRows 0 None true) = Some (7%nat, rows') /\
                rows_closed rows' = true /\ unread rows' = 0%nat.
Proof.
  apply (Query_returns_the_closed_cursor "SELECT 1" 7 (mkRows 2 None false)).
  reflexivity.
Defined.

Lemma Transaction_spec_witness :
  snd (Transaction (mkAnswers None (Some ErrNoRows) None None))
  = Some ErrNoRows.
Proof.
  apply (Transaction_spec (mkAnswers None (Some ErrNoRows) None None));
    [reflexivity | discriminate | reflexivity].
Defined.

End DatabaseSpec.

(** ** The HTTP client *)

Module HTTPSpec.
Import HTTP.

Lemma shouldRetry_doRequest opt a e :
  doRequest opt a = inr e -> shouldRetry (Some e) = true ->
  retried_after opt a.
Proof.
  unfold doRequest, retried_after.
  destruct a as [c|c|status cl header read elapsed]; try (intros [= <-]; discriminate).
  destruct (Z.gtb_spec cl (MaxBodySize opt)) as [Hgt|Hle].
  - intros [= <-] Hs. cbn in Hs. apply Z.leb_le in Hs.
    exists status, cl, header, read, elapsed. auto.
  - destruct read as [body|cause]; [discriminate|].
    intros [= <-] Hs. cbn in Hs. apply Z.leb_le in Hs.
    exists status, cl, header, (inr cause), elapsed. eauto.
Qed.

Lemma do_loop_spec opt answers cancelled : forall fuel i lastErr,
  (Z.to_nat (RetryCount opt + 1 - Z.of_nat i) < fuel)%nat ->
  exists o,
    do_loop fuel i lastErr opt answers cancelled = Some o /\
    (i <= attempts o)%nat /\
    Z.of_nat (attempts o) <= Z.max (Z.of_nat i) (RetryCount opt + 1) /\
    (forall k, (i <= k)%nat -> (S k < attempts o)%nat ->
       retried_after opt (answers k) /\ cancelled k = None).
Proof.
  induction fuel as [|fuel IH]; intros i lastErr Hfuel; [lia|].
  cbn [do_loop].
  destruct (Z.leb_spec (Z.of_nat i) (RetryCount opt)) as [Hle|Hgt].
  - destruct (doRequest opt (answers i)) as [r|e] eqn:Hreq.
    + eexists. split; [reflexivity|]. cbn [attempts].
      split; [lia|]. split; [lia|]. intros; lia.
    + destruct (shouldRetry (Some e)) eqn:Hs; cbn [negb orb].
      * destruct (Z.eqb_spec (Z.of_nat i) (RetryCount opt)) as [Heq|Hne].
        { eexists. split; [reflexivity|]. cbn [attempts].
          split; [lia|]. split; [lia|]. intros; lia. }
        destruct (cancelled i) as [ce|] eqn:Hcan.
        { eexists. split; [reflexivity|]. cbn [attempts].
          split; [lia|]. split; [lia|]. intros; lia. }
        destruct (IH (S i) (Some e)) as (o & Ho & Hge & Hbound & Hret); [lia|].
        exists o. split; [exact Ho|]. split; [lia|]. split; [lia|].
        intros k Hk Hlt. destruct (decide (k = i)) as [->|Hki].
        -- split; [eapply shouldRetry_doRequest; eauto | exact Hcan].
        -- apply Hret; lia.
      * eexists. split; [reflexivity|]. cbn [attempts].
        split; [lia|]. split; [lia|]. intros; lia.
  - eexists. split; [reflexivity|]. cbn [attempts].
    split; [lia|]. split; [lia|]. intros; lia.
Qed.

(** X19.  [do] always returns, after at most [RetryCount + 1] requests, four
    with the default options.  With a negative [RetryCount] it makes no
    request at all and returns neither a response nor an error. *)
Theorem do_attempts_bounded (request_timeout max_request_size : Z)
    (opt : option RequestOption) (answers : nat -> answer)
    (cancelled : nat -> option error) :
  let retries :=
    match opt with Some o => RetryCount o | None => 3 end in
  exists o,
    do request_timeout max_request_size opt answers cancelled = Some o /\
    Z.of_nat (attempts o) <= Z.max 0 (retries + 1) /\
    (opt = None -> (attempts o <= 4)%nat) /\
    (retries < 0 -> o = mkOutcome None None 0).
Proof.
  intros retries. unfold do.
  set (opt' := match opt with Some o => o | None => _ end).
  assert (RetryCount opt' = retries) as Hr by (destruct opt; reflexivity).
  destruct (do_loop_spec opt' answers cancelled
              (S (Z.to_nat (RetryCount opt' + 1))) 0 None)
    as (o & Ho & _ & Hbound & _); [lia|].
  exists o. split; [exact Ho|]. rewrite Hr in *.
  split; [cbn in Hbound; lia|]. split.
  - intros ->. cbn in retries. subst retries. cbn in Hbound. lia.
  - intros Hneg. cbn [do_loop] in Ho.
    destruct (Z.leb_spec (Z.of_nat 0) (RetryCount opt')); [cbn in *; lia|].
    now injection Ho as <-.
Qed.

(** X20.  [do] goes round its loop again only after a response with a status
    of 500 or more whose body was too large or could not be read, and
    only while the context is not done.  A failure of [client.Do] or of
    [NewRequestWithContext] is never retried: [do] returns it after that
    one request, whatever [RetryCount]. *)
Theorem do_retries_only_failed_5xx (request_timeout max_request_size : Z)
    (opt : option RequestOption) (answers : nat -> answer)
    (cancelled : nat -> option error) (o : outcome) :
  let opt' := match opt with
              | Some x => x
              | None => default_option request_timeout max_request_size
              end in
  do request_timeout max_request_size opt answers cancelled = Some o ->
  (forall k, (S k < attempts o)%nat ->
     retried_after opt' (answers k) /\ cancelled k = None) /\
  (forall k cause, (k < attempts o)%nat -> answers k = NoResponse cause ->
     attempts o = S k /\ resp o = None /\
     err o = Some (HttpError 0 "request failed" (Some cause))) /\
  (forall k cause, (k < attempts o)%nat -> answers k = BadRequest cause ->
     attempts o = S k /\ resp o = None /\
     err o = Some (HttpError 0 "failed to create request" (Some cause))).
Proof.
  intros opt' Hdo. unfold do in Hdo. fold opt' in Hdo.
  destruct (do_loop_spec opt' answers cancelled
              (S (Z.to_nat (RetryCount opt' + 1))) 0 None)
    as (o' & Ho & _ & _ & Hret); [lia|].
  rewrite Hdo in Ho. injection Ho as <-.
  assert (forall k, (S k < attempts o)%nat ->
            retried_after opt' (answers k) /\ cancelled k = None) as Hretried
    by (intros k Hk; apply Hret; lia).
  assert (forall fuel i lastErr k,
            do_loop fuel i lastErr opt' answers cancelled = Some o ->
            (i <= k < attempts o)%nat ->
            (forall st cl h rd el, answers k <> Responded st cl h rd el) ->
            attempts o = S k /\ resp o = None /\
            err o = match doRequest opt' (answers k) with
                    | inr e => Some e | inl _ => None end) as Hlast.
  { induction fuel as [|fuel IH]; intros i lastErr k Hl Hk Hans;
      [discriminate|]. cbn [do_loop] in Hl.
    destruct (Z.of_nat i <=? RetryCount opt');
      [|injection Hl as <-; cbn in Hk; lia].
    destruct (decide (k = i)) as [->|Hki].
    - destruct (answers i) as [c|c|st cl h rd el] eqn:Ha;
        [| |now destruct (Hans st cl h rd el)];
        cbn in Hl |- *; injection Hl as <-; cbn; auto.
    - destruct (doRequest opt' (answers i)) as [r|e];
        [injection Hl as <-; cbn in Hk; lia|].
      destruct (negb (shouldRetry (Some e)) || (Z.of_nat i =? RetryCount opt'));
        [injection Hl as <-; cbn in Hk; lia|].
      destruct (cancelled i); [injection Hl as <-; cbn in Hk; lia|].
      apply (IH (S i) (Some e) k Hl); [lia | exact Hans]. }
  split; [exact Hretried|]. split.
  - intros k cause Hk Ha.
    destruct (Hlast _ _ _ k Hdo) as (H1 & H2 & H3); [lia|rewrite Ha; discriminate|].
    rewrite Ha in H3. auto.
  - intros k cause Hk Ha.
    destruct (Hlast _ _ _ k Hdo) as (H1 & H2 & H3); [lia|rewrite Ha; discriminate|].
    rewrite Ha in H3. auto.
Qed.

(** X21.  A response whose body was read is a success whatever its status:
    [do] returns it, statuses 4xx and 5xx included, with no error and no
    further request. *)
Theorem do_returns_any_status (request_timeout max_request_size : Z)
    (opt : option RequestOption) (answers : nat -> answer)
    (cancelled : nat -> option error)
    (status content_length elapsed : Z)
    (header : list (string * list string)) (body : string) :
  let opt' := match opt with
              | Some x => x
              | None => default_option request_timeout max_request_size
              end in
  0 <= RetryCount opt' ->
  content_length <= MaxBodySize opt' ->
  answers 0%nat = Responded status content_length header (inl body) elapsed ->
  do request_timeout max_request_size opt answers cancelled
  = Some (mkOutcome (Some (mkResponse status body header elapsed)) None 1).
Proof.
  intros opt' Hretry Hlen Ha. unfold do. fold opt'. cbn [do_loop].
  destruct (Z.leb_spec (Z.of_nat 0) (RetryCount opt')); [|cbn in *; lia].
  rewrite Ha. unfold doRequest.
  destruct (Z.gtb_spec content_length (MaxBodySize opt')); [lia|].
  reflexivity.
Qed.

Lemma do_retries_only_failed_5xx_witness :
  attempts (mkOutcome None
              (Some (HttpError 0 "request failed"
                       (Some (OtherError "connection refused")))) 1)
  = 1%nat.
Proof.
  destruct (do_retries_only_failed_5xx 0 1024 None
              (fun _ => NoResponse (OtherError "connection refused"))
              (fun _ => None)
              (mkOutcome None
                 (Some (HttpError 0 "request failed"
                          (Some (OtherError "connection refused")))) 1)
              eq_refl) as (_ & Hnever & _).
  exact (proj1 (Hnever 0%nat (OtherError "connection refused")
                  (le_n 1) eq_refl)).
Defined.

Lemma do_returns_any_status_witness :
  do 0 1024 None
    (fun _ => Responded 503 (-1) [] (inl "busy") 5) (fun _ => None)
  = Some (mkOutcome (Some (mkResponse 503 "busy" [] 5)) None 1).
Proof.
  apply (do_returns_any_status 0 1024 None
           (fun _ => Responded 503 (-1) [] (inl "busy") 5) (fun _ => None)
           503 (-1) 5 [] "busy"); [cbn; lia | cbn; lia | reflexivity].
Defined.

End HTTPSpec.

(** ** The logger *)

Module LoggerSpec.
Import Logger.

(** X22.  [parseLevel] accepts the four lower-case names and nothing else.
    What [Level.String] prints is never accepted, for any level: the two
    are inverse only up to the case of the letters. *)
Theorem parseLevel_spec :
  (forall s l,
     parseLevel s = (l, None) <->
     (s = "debug" /\ l = Debug) \/ (s = "info" /\ l = Info) \/
     (s = "warn" /\ l = Warn) \/ (s = "error" /\ l = Error)) /\
  (forall s l, parseLevel s = (l, None) -> 0 <= l <= 3) /\
  (forall l, snd (parseLevel (String l))
             = Some ("invalid log level: " +:+ String l)) /\
  (forall s l, parseLevel s = (l, None) ->
               Config.ToLower_ascii (String l) = s).
Proof.
  assert (forall s l,
     parseLevel s = (l, None) <->
     (s = "debug" /\ l = Debug) \/ (s = "info" /\ l = Info) \/
     (s = "warn" /\ l = Warn) \/ (s = "error" /\ l = Error)) as Hiff.
  { intros s l. unfold parseLevel. split.
    - destruct (String.eqb_spec s "debug") as [->|_]; [intros [= <-]; auto|].
      destruct (String.eqb_spec s "info") as [->|_]; [intros [= <-]; auto|].
      destruct (String.eqb_spec s "warn") as [->|_]; [intros [= <-]; auto 6|].
      destruct (String.eqb_spec s "error") as [->|_]; [intros [= <-]; auto 6|].
      discriminate.
    - intros [[-> ->]|[[-> ->]|[[-> ->]|[-> ->]]]]; reflexivity. }
  split; [exact Hiff|]. split; [|split].
  - intros s l H. apply Hiff in H.
    destruct H as [[_ ->]|[[_ ->]|[[_ ->]|[_ ->]]]];
      unfold Debug, Info, Warn, Error; lia.
  - intros l. unfold String.
    repeat (destruct (_ =? _); [reflexivity|]). reflexivity.
  - intros s l H. apply Hiff in H.
    destruct H as [[-> ->]|[[-> ->]|[[-> ->]|[-> ->]]]]; reflexivity.
Qed.

Section Fields.
Variable value : Type.

(** X23.  A logger that [New] built never filters out an [Error] call, lets a
    [Debug] call through only when it was configured with ["debug"], and
    lets through every call at least as severe as one it lets through. *)
Theorem New_logger_filters_by_level (configured_level output : string)
    (open_err : option string) (l : defaultLogger value)
    (msg : string) (err : option string) (fs : list (Field value)) :
  New value configured_level output open_err = inl l ->
  parseLevel configured_level = (level _ l, None) /\
  LogError value l msg err fs = [mkLogCall value Error msg err fs] /\
  (LogDebug value l msg fs = [mkLogCall value Debug msg None fs] <->
   configured_level = "debug") /\
  (LogDebug value l msg fs <> [] -> LogInfo value l msg fs <> []) /\
  (LogInfo value l msg fs <> [] -> LogWarn value l msg fs <> []).
Proof.
  intros Hnew.
  assert (parseLevel configured_level = (level _ l, None)) as Hp.
  { unfold New in Hnew.
    destruct (parseLevel configured_level) as [lvl [e|]]; [discriminate|].
    destruct (_ || _); [|destruct open_err; [discriminate|]];
      injection Hnew as <-; reflexivity. }
  split; [exact Hp|].
  pose proof (proj1 (proj1 parseLevel_spec _ _) Hp) as Hcases.
  unfold LogError, LogDebug, LogInfo, LogWarn.
  destruct Hcases as [[-> Hl]|[[-> Hl]|[[-> Hl]|[-> Hl]]]]; rewrite Hl;
    cbn; repeat split; intros; congruence.
Qed.

Lemma fold_insert_lookup (fs : list (Field value)) :
  forall (m : gmap string value) (k : string),
  fold_left (fun m f => <[Key _ f := Value _ f]> m) fs m !! k
  = match last (filter (fun f => Key _ f = k) fs) with
    | Some f => Some (Value _ f)
    | None => m !! k
    end.
Proof.
  induction fs as [|f fs IH]; intros m k; cbn [fold_left]; [reflexivity|].
  rewrite IH, filter_cons.
  destruct (decide (Key _ f = k)) as [Hk|Hk].
  - rewrite (last_cons f).
    destruct (last (filter _ fs)); [reflexivity|].
    rewrite <- Hk. now rewrite lookup_insert_eq.
  - destruct (last (filter _ fs)); [reflexivity|].
    now rewrite lookup_insert_ne.
Qed.

(** X24.  In the map of fields the last field with a key wins; so in what
    [log] writes, a field given at the call overrides a field of the
    logger with the same key, and a logger field shows only where the
    call gives none. *)
Theorem fieldsToMap_last_wins (l : defaultLogger value)
    (fs : list (Field value)) (k : string) :
  fieldsToMap value fs !! k
  = Value _ <$> last (filter (fun f => Key _ f = k) fs) /\
  logged_fields value l fs !! k
  = match fieldsToMap value fs !! k with
    | Some v => Some v
    | None => fieldsToMap value (fields _ l) !! k
    end.
Proof.
  assert (forall gs, fieldsToMap value gs !! k
                     = Value _ <$> last (filter (fun f => Key _ f = k) gs))
    as Hmap.
  { intros gs. unfold fieldsToMap. rewrite fold_insert_lookup.
    destruct (last _); [reflexivity | apply lookup_empty]. }
  split; [apply Hmap|].
  unfold logged_fields. rewrite !Hmap, filter_app.
  destruct (filter (fun f => Key _ f = k) fs) as [|g gs] eqn:Hf.
  - now rewrite app_nil_r.
  - rewrite last_app. destruct (last (g :: gs)) eqn:Hl; [reflexivity|].
    now apply last_None in Hl.
Qed.

End Fields.

Lemma New_logger_filters_by_level_witness :
  LogError nat (mkLogger nat Warn "" []) "disk full" None []
  = [mkLogCall nat Error "disk full" None []].
Proof.
  apply (New_logger_filters_by_level nat "warn" "stdout" None
           (mkLogger nat Warn "" []) "disk full" None []).
  reflexivity.
Defined.

End LoggerSpec.

(** ** Validation of the configuration *)

Module ConfigSpec.
Import Config.

Section Validate.
Variable ToLower : string -> string.

(** X25.  [validate] accepts a configuration exactly when every rule holds;
    the two rules on metrics bind only when metrics are enabled. *)
Theorem validate_accepts_iff (config : Config) :
  validate ToLower config = None <->
  0 < MaxOpenConns (database config) /\
  0 < MaxIdleConns (database config) /\
  0 < MaxLifetime (database config) /\
  1 <= HTTPPort (http config) <= 65535 /\
  0 < ReadTimeout (http config) /\
  0 < WriteTimeout (http config) /\
  validLevels (ToLower (Level (logger config))) = true /\
  (Enabled (metrics config) = true ->
   Endpoint (metrics config) <> "" /\ 0 < Interval (metrics config)).
Proof.
  unfold validate.
  destruct (Z.leb_spec (MaxOpenConns (database config)) 0);
    [split; [discriminate | lia]|].
  destruct (Z.leb_spec (MaxIdleConns (database config)) 0);
    [split; [discriminate | lia]|].
  destruct (Z.leb_spec (MaxLifetime (database config)) 0);
    [split; [discriminate | lia]|].
  destruct (Z.leb_spec (HTTPPort (http config)) 0);
    [split; [discriminate | lia]|].
  destruct (Z.gtb_spec (HTTPPort (http config)) 65535);
    [split; [discriminate | lia]|]. cbn [orb].
  destruct (Z.leb_spec (ReadTimeout (http config)) 0);
    [split; [discriminate | lia]|].
  destruct (Z.leb_spec (WriteTimeout (http config)) 0);
    [split; [discriminate | lia]|].
  destruct (validLevels (ToLower (Level (logger config)))); cbn [negb];
    [|split; [discriminate | intros (_ & _ & _ & _ & _ & _ & ? & _); discriminate]].
  destruct (Enabled (metrics config));
    [|split; [intros _; repeat split; try lia; discriminate | reflexivity]].
  destruct (String.eqb_spec (Endpoint (metrics config)) "") as [He|He].
  { split; [discriminate|].
    intros (_ & _ & _ & _ & _ & _ & _ & Hm).
    now destruct (Hm eq_refl). }
  destruct (Z.leb_spec (Interval (metrics config)) 0).
  { split; [discriminate|].
    intros (_ & _ & _ & _ & _ & _ & _ & Hm).
    destruct (Hm eq_refl). lia. }
  split; [intros _; repeat split; auto; lia | reflexivity].
Qed.

Hypothesis ToLower_names :
  forall s, validLevels s = true -> ToLower s = s.

(** X26.  Validation does not make [logger.New] succeed: [validate] lowers
    the level before it checks it, [parseLevel] does not.  A configuration
    that [validate] accepts and whose level is not written in lower case
    is rejected by [logger.New], with the error of [parseLevel]. *)
Theorem validated_level_rejected_by_logger (config : Config)
    (output : string) (open_err : option string) :
  validate ToLower config = None ->
  ToLower (Level (logger config)) <> Level (logger config) ->
  Logger.New unit (Level (logger config)) output open_err
  = inr ("invalid log level: " +:+ Level (logger config)).
Proof.
  intros Hv Hcase.
  apply validate_accepts_iff in Hv as (_ & _ & _ & _ & _ & _ & Hvalid & _).
  assert (validLevels (Level (logger config)) = false) as Hnot.
  { destruct (validLevels (Level (logger config))) eqn:Hl; [|reflexivity].
    now apply ToLower_names in Hl. }
  unfold validLevels in Hnot.
  apply orb_false_elim in Hnot as [Hnot He].
  apply orb_false_elim in Hnot as [Hnot Hw].
  apply orb_false_elim in Hnot as [Hd Hi].
  unfold Logger.New, Logger.parseLevel. now rewrite Hd, Hi, Hw, He.
Qed.

End Validate.

Lemma validate_accepts_iff_witness :
  validate ToLower_ascii
    (mkConfig (mkDatabaseConfig "db" 3306 "u" "p" "orders" 10 5 3600)
       (mkHTTPConfig 8080 5 5 0 0 0 0)
       (mkLoggerConfig "INFO" "" "stdout" "")
       (mkMetricsConfig false "" "" 0))
  = None.
Proof.
  apply (validate_accepts_iff ToLower_ascii).
  cbn. repeat split; try lia; discriminate.
Defined.

Lemma validated_level_rejected_by_logger_witness :
  Logger.New unit "INFO" "stdout" None = inr "invalid log level: INFO".
Proof.
  apply (validated_level_rejected_by_logger ToLower_ascii
           ltac:(intros s Hs; unfold validLevels in Hs;
                 repeat (apply orb_true_elim in Hs as [Hs|Hs]);
                 apply String.eqb_eq in Hs; subst; reflexivity)
           (mkConfig (mkDatabaseConfig "db" 3306 "u" "p" "orders" 10 5 3600)
              (mkHTTPConfig 8080 5 5 0 0 0 0)
              (mkLoggerConfig "INFO" "" "stdout" "")
              (mkMetricsConfig false "" "" 0))
           "stdout" None);
    [reflexivity | discriminate].
Defined.

End ConfigSpec.

